(** * LabQue queue server: a shallow embedding of [server.js]

    The server keeps its whole state in module-level variables ([queues],
    [currentServing], [lastServed], [queueNumbers], ...), mutates them from
    Express route handlers, writes a JSON snapshot with [fs.writeFileSync]
    after most mutations and pushes text messages to WebSocket clients.

    The embedding follows that shape:
    - the module-level variables form the record [Engine];
    - the snapshot file, the messages sent to WebSocket clients and the
      console form, together with the engine, the record [World];
    - a route handler is a computation in a state-and-exception monad [M]
      over [World]; a JavaScript exception does not roll the state back, so
      a thrown completion carries the world reached when it was thrown;
    - the inputs a handler cannot control ([Date.now()], whether the file
      system accepts a write or an unlink) are explicit parameters. *)

From Stdlib Require Import String Ascii List NArith PeanoNat Bool Lia Sorted.
From Stdlib Require Import DecimalString DecimalN.
Import ListNotations.
Local Open Scope string_scope.
Local Open Scope N_scope.

(** ** Stations and property keys *)

(** The three keys of the object literals [queues], [currentServing],
    [lastServed] and [queueNumbers]. *)
Inductive Station : Type := Charging | Releasing | Extraction.

Definition station_name (st : Station) : string :=
  match st with
  | Charging => "Charging"
  | Releasing => "Releasing"
  | Extraction => "Extraction"
  end.

(** Key order of the literals, which is the order of [for (... in queues)]. *)
Definition stations : list Station := [Charging; Releasing; Extraction].

Definition Station_eqb (a b : Station) : bool :=
  match a, b with
  | Charging, Charging | Releasing, Releasing | Extraction, Extraction => true
  | _, _ => false
  end.

(** An object literal with the three station keys. *)
Record PerStation (A : Type) : Type := mkPerStation {
  atCharging : A;
  atReleasing : A;
  atExtraction : A
}.
Arguments mkPerStation {A} _ _ _.
Arguments atCharging {A} _.
Arguments atReleasing {A} _.
Arguments atExtraction {A} _.

Definition get {A} (st : Station) (o : PerStation A) : A :=
  match st with
  | Charging => atCharging o
  | Releasing => atReleasing o
  | Extraction => atExtraction o
  end.

Definition set {A} (st : Station) (v : A) (o : PerStation A) : PerStation A :=
  match st with
  | Charging => mkPerStation v (atReleasing o) (atExtraction o)
  | Releasing => mkPerStation (atCharging o) v (atExtraction o)
  | Extraction => mkPerStation (atCharging o) (atReleasing o) v
  end.

Definition every {A} (v : A) : PerStation A := mkPerStation v v v.

(** The four state objects are plain object literals, so a property read
    [o[service]] that finds no own property continues in [Object.prototype].
    These are its function-valued members with their [length] (number of
    declared parameters); [__proto__] is an accessor and is treated apart. *)
Definition object_prototype_functions : list (string * nat) :=
  [ ("constructor", 1%nat); ("hasOwnProperty", 1%nat);
    ("isPrototypeOf", 1%nat); ("propertyIsEnumerable", 1%nat);
    ("toLocaleString", 0%nat); ("toString", 0%nat); ("valueOf", 0%nat);
    ("__defineGetter__", 2%nat); ("__defineSetter__", 2%nat);
    ("__lookupGetter__", 1%nat); ("__lookupSetter__", 1%nat) ].

Fixpoint assoc {A} (k : string) (l : list (string * A)) : option A :=
  match l with
  | [] => None
  | (k', v) :: r => if String.eqb k k' then Some v else assoc k r
  end.

(** What a string used as a property key of one of the state objects finds. *)
Inductive Key : Type :=
| KStation (st : Station)      (* an own property of the literal *)
| KFunction (arity : nat)     (* a function inherited from Object.prototype *)
| KProto                      (* "__proto__": yields Object.prototype itself *)
| KNone.                      (* undefined *)

Definition lookup_key (service : string) : Key :=
  if String.eqb service "Charging" then KStation Charging
  else if String.eqb service "Releasing" then KStation Releasing
  else if String.eqb service "Extraction" then KStation Extraction
  else if String.eqb service "__proto__" then KProto
  else match assoc service object_prototype_functions with
       | Some n => KFunction n
       | None => KNone
       end.

(** ** Data *)

(** [{ number, service, timestamp }], built in [app.post('/queue')]. *)
Record Ticket : Type := mkTicket {
  number : string;
  service : string;
  timestamp : N
}.

(** [settings]: a literal that no code path assigns. *)
Definition averageServiceTime : N := 5.
Definition maxQueueLength : nat := 100.

(** The module-level variables.  Besides the station keys, two of the objects
    can gain own properties at run time:
    - [currentServingFns]: keys of [currentServing] that hold the function of
      [Object.prototype] of the same name (stored by [/recall]);
    - [queueNumbersNaN]: keys of [queueNumbers] that hold [NaN] (stored by
      [generateQueueNumber] when the old value is not a number).
    Counters are JavaScript numbers; they are modelled as unbounded naturals,
    which is exact below 2^53. *)
Record Engine : Type := mkEngine {
  queues : PerStation (list Ticket);
  currentServing : PerStation (option Ticket);
  currentServingFns : list string;
  lastServed : PerStation (option Ticket);
  queueNumbers : PerStation N;
  queueNumbersNaN : list string;
  servedHistory : list Ticket;
  totalServed : N;
  totalWaitTime : N;
  currentAnnouncement : string
}.

(** The initial values of the declarations, also assigned by [/reset-queue]. *)
Definition fresh : Engine :=
  {| queues := every [];
     currentServing := every None;
     currentServingFns := [];
     lastServed := every None;
     queueNumbers := every 0;
     queueNumbersNaN := [];
     servedHistory := [];
     totalServed := 0;
     totalWaitTime := 0;
     currentAnnouncement := "" |}.

(** [JSON.stringify(state, null, 2)]: the snapshot is the state object as
    serialised; function-valued properties are left out by [JSON.stringify]
    (a [NaN] is written as [null], the key stays). *)
Definition snapshot (m : Engine) : Engine :=
  {| queues := queues m;
     currentServing := currentServing m;
     currentServingFns := [];
     lastServed := lastServed m;
     queueNumbers := queueNumbers m;
     queueNumbersNaN := queueNumbersNaN m;
     servedHistory := servedHistory m;
     totalServed := totalServed m;
     totalWaitTime := totalWaitTime m;
     currentAnnouncement := currentAnnouncement m |}.

(** The engine together with what it acts on: the content of [DATA_FILE]
    ([None]: no file), the messages passed to [notifyClients] (oldest first)
    and the lines written to the console (oldest first). *)
Record World : Type := mkWorld {
  mem : Engine;
  data_file : option Engine;
  sent : list string;
  console : list string
}.

(** A process started with no snapshot on disk: [loadState] finds no file. *)
Definition initial : World :=
  {| mem := fresh; data_file := None; sent := []; console := [] |}.

(** What the file system does with the requests of one handler run. *)
Record Env : Type := mkEnv {
  write_fails : bool;     (* fs.writeFileSync throws *)
  unlink_fails : bool     (* fs.unlink reports an error for an existing file *)
}.

Definition fs_ok : Env := {| write_fails := false; unlink_fails := false |}.
Definition fs_write_error : Env := {| write_fails := true; unlink_fails := false |}.

(** ** The monad of handlers *)

Inductive Exn : Type :=
| TypeError      (* a call or property read on a value that does not allow it *)
| WriteError.    (* thrown by fs.writeFileSync *)

Inductive Completion (A : Type) : Type :=
| Normal (a : A)
| Throw (e : Exn).
Arguments Normal {A} _.
Arguments Throw {A} _.

Definition M (A : Type) : Type := World -> Completion A * World.

Definition ret {A} (a : A) : M A := fun w => (Normal a, w).

Definition throw {A} (e : Exn) : M A := fun w => (Throw e, w).

Definition bind {A B} (c : M A) (k : A -> M B) : M B :=
  fun w =>
    match c w with
    | (Normal a, w') => k a w'
    | (Throw e, w') => (Throw e, w')
    end.

Notation "x <- c ;; k" := (bind c (fun x => k))
  (at level 61, c at next level, right associativity).
Notation "c ;; k" := (bind c (fun _ => k))
  (at level 61, right associativity).

Definition gets {A} (f : Engine -> A) : M A := fun w => (Normal (f (mem w)), w).

Definition modify (f : Engine -> Engine) : M unit :=
  fun w =>
    (Normal tt,
     {| mem := f (mem w); data_file := data_file w;
        sent := sent w; console := console w |}).

(** Assignments to the module-level variables. *)
Definition set_queues (v : PerStation (list Ticket)) (m : Engine) : Engine :=
  mkEngine v (currentServing m) (currentServingFns m) (lastServed m)
    (queueNumbers m) (queueNumbersNaN m) (servedHistory m) (totalServed m)
    (totalWaitTime m) (currentAnnouncement m).

Definition set_currentServing (v : PerStation (option Ticket)) (m : Engine) : Engine :=
  mkEngine (queues m) v (currentServingFns m) (lastServed m)
    (queueNumbers m) (queueNumbersNaN m) (servedHistory m) (totalServed m)
    (totalWaitTime m) (currentAnnouncement m).

Definition set_currentServingFns (v : list string) (m : Engine) : Engine :=
  mkEngine (queues m) (currentServing m) v (lastServed m)
    (queueNumbers m) (queueNumbersNaN m) (servedHistory m) (totalServed m)
    (totalWaitTime m) (currentAnnouncement m).

Definition set_lastServed (v : PerStation (option Ticket)) (m : Engine) : Engine :=
  mkEngine (queues m) (currentServing m) (currentServingFns m) v
    (queueNumbers m) (queueNumbersNaN m) (servedHistory m) (totalServed m)
    (totalWaitTime m) (currentAnnouncement m).

Definition set_queueNumbers (v : PerStation N) (m : Engine) : Engine :=
  mkEngine (queues m) (currentServing m) (currentServingFns m) (lastServed m)
    v (queueNumbersNaN m) (servedHistory m) (totalServed m)
    (totalWaitTime m) (currentAnnouncement m).

Definition set_queueNumbersNaN (v : list string) (m : Engine) : Engine :=
  mkEngine (queues m) (currentServing m) (currentServingFns m) (lastServed m)
    (queueNumbers m) v (servedHistory m) (totalServed m)
    (totalWaitTime m) (currentAnnouncement m).

Definition set_servedHistory (v : list Ticket) (m : Engine) : Engine :=
  mkEngine (queues m) (currentServing m) (currentServingFns m) (lastServed m)
    (queueNumbers m) (queueNumbersNaN m) v (totalServed m)
    (totalWaitTime m) (currentAnnouncement m).

Definition set_totalServed (v : N) (m : Engine) : Engine :=
  mkEngine (queues m) (currentServing m) (currentServingFns m) (lastServed m)
    (queueNumbers m) (queueNumbersNaN m) (servedHistory m) v
    (totalWaitTime m) (currentAnnouncement m).

Definition set_totalWaitTime (v : N) (m : Engine) : Engine :=
  mkEngine (queues m) (currentServing m) (currentServingFns m) (lastServed m)
    (queueNumbers m) (queueNumbersNaN m) (servedHistory m) (totalServed m)
    v (currentAnnouncement m).

Definition set_currentAnnouncement (v : string) (m : Engine) : Engine :=
  mkEngine (queues m) (currentServing m) (currentServingFns m) (lastServed m)
    (queueNumbers m) (queueNumbersNaN m) (servedHistory m) (totalServed m)
    (totalWaitTime m) v.

(** Adding an own property under a key that is not a station key: the key is
    appended unless the object already has it. *)
Definition add_key (k : string) (l : list string) : list string :=
  if existsb (String.eqb k) l then l else l ++ [k].

(** ** Effects *)

(** [saveState()]: [fs.writeFileSync] either replaces the file by the
    serialised state or throws; nothing in the server catches it. *)
Definition saveState (env : Env) : M unit :=
  fun w =>
    if write_fails env then (Throw WriteError, w)
    else (Normal tt,
          {| mem := mem w; data_file := Some (snapshot (mem w));
             sent := sent w; console := console w |}).

(** [notifyClients(message)]: the message is handed to every open client. *)
Definition notifyClients (message : string) : M unit :=
  fun w =>
    (Normal tt,
     {| mem := mem w; data_file := data_file w;
        sent := sent w ++ [message]; console := console w |}).

(** [console.log] and [console.error]. *)
Definition console_line (line : string) : M unit :=
  fun w =>
    (Normal tt,
     {| mem := mem w; data_file := data_file w;
        sent := sent w; console := console w ++ [line] |}).

(** [fs.unlink(DATA_FILE, callback)]: the file is removed, or the callback
    logs the error (also when there is no file to remove).  The removal is
    asynchronous in the server; it is placed at the end of the handler. *)
Definition unlink_data_file (env : Env) : M unit :=
  fun w =>
    match data_file w with
    | Some f =>
        if unlink_fails env
        then console_line "Failed to remove saved queue file:" w
        else (Normal tt,
              {| mem := mem w; data_file := None;
                 sent := sent w; console := console w |})
    | None => console_line "Failed to remove saved queue file:" w
    end.

(** ** Ticket numbers *)

(** [String.prototype.toUpperCase] on one ASCII character (the keys that get
    past the check of [/queue] all start with one). *)
Definition upper (c : ascii) : ascii :=
  let n := nat_of_ascii c in
  if (Nat.leb 97 n && Nat.leb n 122)%bool then ascii_of_nat (n - 32) else c.

(** [service.charAt(0).toUpperCase()]. *)
Definition prefix (service : string) : string :=
  match service with
  | EmptyString => ""
  | String c _ => String (upper c) ""
  end.

(** A counter value inside a template literal: its decimal digits. *)
Definition decimal (n : N) : string := NilEmpty.string_of_uint (N.to_uint n).

(** [generateQueueNumber(service)]: [++queueNumbers[service]] adds one to a
    station's counter; on any other key the old value is not a number, the
    result is [NaN], and it is stored as an own property (the setter of
    [__proto__] ignores it). *)
Definition generateQueueNumber (service : string) : M string :=
  match lookup_key service with
  | KStation st =>
      n <- gets (fun m => get st (queueNumbers m) + 1) ;;
      modify (fun m => set_queueNumbers (set st n (queueNumbers m)) m) ;;
      ret (prefix service ++ decimal n)
  | KProto =>
      ret (prefix service ++ "NaN")
  | KFunction _ | KNone =>
      modify (fun m => set_queueNumbersNaN (add_key service (queueNumbersNaN m)) m) ;;
      ret (prefix service ++ "NaN")
  end.

(** ** Queue operations *)

(** [addToQueue(service, user)].  On an inherited function, [.length] is its
    arity and [.push] is undefined, so the call throws; on [Object.prototype]
    [.length] is undefined and the comparison is false. *)
Definition addToQueue (env : Env) (service : string) (user : Ticket) : M unit :=
  match lookup_key service with
  | KStation st =>
      q <- gets (fun m => get st (queues m)) ;;
      if Nat.ltb (length q) maxQueueLength then
        modify (fun m => set_queues (set st (q ++ [user])%list (queues m)) m) ;;
        saveState env
      else
        console_line ("Queue for " ++ service ++ " is full.")
  | KFunction arity =>
      if Nat.ltb arity maxQueueLength then throw TypeError
      else console_line ("Queue for " ++ service ++ " is full.")
  | KProto =>
      console_line ("Queue for " ++ service ++ " is full.")
  | KNone =>
      ret tt
  end.

(** [callNextNumber(service)]: [queues[service].shift()] throws unless
    [queues[service]] is one of the arrays. *)
Definition callNextNumber (env : Env) (service : string) : M (option Ticket) :=
  match lookup_key service with
  | KStation st =>
      q <- gets (fun m => get st (queues m)) ;;
      match q with
      | [] => ret None
      | nextUser :: rest =>
          modify (fun m => set_queues (set st rest (queues m)) m) ;;
          modify (fun m => set_currentServing (set st (Some nextUser) (currentServing m)) m) ;;
          modify (fun m => set_lastServed (set st (Some nextUser) (lastServed m)) m) ;;
          modify (fun m => set_servedHistory (servedHistory m ++ [nextUser])%list m) ;;
          modify (fun m => set_totalServed (totalServed m + 1) m) ;;
          modify (fun m => set_totalWaitTime (totalWaitTime m + averageServiceTime) m) ;;
          notifyClients ("Now serving number " ++ number nextUser ++ " at " ++ service) ;;
          saveState env ;;
          ret (Some nextUser)
      end
  | KFunction _ | KProto | KNone => throw TypeError
  end.

(** ** Route handlers *)

(** One entry of the object built by [app.get('/queue')]; [current] is the
    number inside [{ number }], or [None] for [null]. *)
Record StationStatus : Type := mkStatus {
  current : option string;
  waiting : list string;
  estimatedWaitTime : N
}.

(** What a handler sends back.  A thrown completion is not a response of the
    handler: Express answers it with its own status 500. *)
Inductive Response : Type :=
| Status (entries : list (string * StationStatus))   (* GET /queue *)
| InvalidService                 (* 400 { error: "Invalid service" } *)
| Number (n : string)            (* { number } *)
| Current (c : option string)    (* { current }, null when no ticket *)
| NothingToRecall                (* 400 { message: 'Nothing to recall.' } *)
| LastNumber (n : option string) (* { lastNumber }, left out when undefined *)
| Done                           (* 200, empty body *)
| Announcement (a : string)      (* { announcement } *)
| ResetDone                      (* 200 { message: "Queue reset successfully" } *)
| NoData                         (* 400 'No data available to export.' *)
| Csv (rows : list (string * string)).  (* rows { service, number } *)

(** [app.get('/queue')]. *)
Definition status_of (m : Engine) (st : Station) : string * StationStatus :=
  let waitingUsers := get st (queues m) in
  (station_name st,
   {| current := match get st (currentServing m) with
                 | Some t => Some (number t)
                 | None => None
                 end;
      waiting := map number waitingUsers;
      estimatedWaitTime := N.of_nat (length waitingUsers) * averageServiceTime |}).

Definition get_queue : M Response :=
  m <- gets (fun m => m) ;;
  ret (Status (map (status_of m) stations)).

(** [app.post('/queue')]; [now] is the value of [Date.now()]. *)
Definition post_queue (env : Env) (service : string) (now : N) : M Response :=
  match lookup_key service with
  | KNone => ret InvalidService
  | _ =>
      n <- generateQueueNumber service ;;
      let user := {| number := n; service := service; timestamp := now |} in
      addToQueue env service user ;;
      ret (Number (number user))
  end.

(** [app.post('/call')]. *)
Definition post_call (env : Env) (service : string) : M Response :=
  currentUser <- callNextNumber env service ;;
  match currentUser with
  | Some t => ret (Current (Some (number t)))
  | None => ret (Current None)
  end.

(** [app.post('/recall')].  An inherited member of [Object.prototype] is
    truthy and has no [number]. *)
Definition post_recall (env : Env) (service : string) : M Response :=
  match lookup_key service with
  | KStation st =>
      last <- gets (fun m => get st (lastServed m)) ;;
      match last with
      | None => ret NothingToRecall
      | Some lastUser =>
          modify (fun m => set_currentServing (set st (Some lastUser) (currentServing m)) m) ;;
          notifyClients ("Now serving number " ++ number lastUser ++ " at " ++ service) ;;
          saveState env ;;
          ret (LastNumber (Some (number lastUser)))
      end
  | KFunction _ =>
      modify (fun m => set_currentServingFns (add_key service (currentServingFns m)) m) ;;
      notifyClients ("Now serving number undefined at " ++ service) ;;
      saveState env ;;
      ret (LastNumber None)
  | KProto =>
      notifyClients ("Now serving number undefined at " ++ service) ;;
      saveState env ;;
      ret (LastNumber None)
  | KNone => ret NothingToRecall
  end.

(** [app.post('/announcement')]. *)
Definition post_announcement (env : Env) (announcement : string) : M Response :=
  modify (set_currentAnnouncement announcement) ;;
  notifyClients ("New Announcement: " ++ announcement) ;;
  saveState env ;;
  ret Done.

(** [app.get('/announcement')]. *)
Definition get_announcement : M Response :=
  a <- gets currentAnnouncement ;;
  ret (Announcement a).

(** [app.post('/reset-queue')]: nothing inside the [try] can throw. *)
Definition post_reset_queue (env : Env) : M Response :=
  modify (fun _ => fresh) ;;
  console_line "Queue has been reset." ;;
  unlink_data_file env ;;
  ret ResetDone.

(** [app.get('/export')]: the rows carry the key of [queues], not the
    ticket's own [service] field. *)
Definition csvData (m : Engine) : list (string * string) :=
  flat_map (fun st => map (fun user => (station_name st, number user)) (get st (queues m)))
           stations.

Definition get_export : M Response :=
  rows <- gets csvData ;;
  match rows with
  | [] => ret NoData
  | _ => ret (Csv rows)
  end.

(** ** Requests and runs *)

Inductive Request : Type :=
| GetQueue
| PostQueue (service : string) (now : N)
| PostCall (service : string)
| PostRecall (service : string)
| PostAnnouncement (announcement : string)
| GetAnnouncement
| PostResetQueue
| GetExport.

Definition handle (env : Env) (r : Request) : M Response :=
  match r with
  | GetQueue => get_queue
  | PostQueue service now => post_queue env service now
  | PostCall service => post_call env service
  | PostRecall service => post_recall env service
  | PostAnnouncement a => post_announcement env a
  | GetAnnouncement => get_announcement
  | PostResetQueue => post_reset_queue env
  | GetExport => get_export
  end.

(** The world after a request, whether its handler returned or threw. *)
Definition after (env : Env) (r : Request) (w : World) : World :=
  snd (handle env r w).

(** The worlds the server can be in: any number of requests, each under any
    behaviour of the file system, from a fresh start. *)
Inductive reachable : World -> Prop :=
| reachable_initial : reachable initial
| reachable_after : forall env r w, reachable w -> reachable (after env r w).

(** The part of the claims about persistence: the requests whose handler
    reaches [saveState()] from a given world. *)
Definition persists (r : Request) (w : World) : bool :=
  match r with
  | PostQueue service _ =>
      match lookup_key service with
      | KStation st => Nat.ltb (length (get st (queues (mem w)))) maxQueueLength
      | _ => false
      end
  | PostCall service =>
      match lookup_key service with
      | KStation st => match get st (queues (mem w)) with [] => false | _ => true end
      | _ => false
      end
  | PostRecall service =>
      match lookup_key service with
      | KStation st => match get st (lastServed (mem w)) with Some _ => true | None => false end
      | KFunction _ | KProto => true
      | KNone => false
      end
  | PostAnnouncement _ => true
  | GetQueue | GetAnnouncement | PostResetQueue | GetExport => false
  end.

(** The same file system, with writes that succeed. *)
Definition writing (env : Env) : Env :=
  {| write_fails := false; unlink_fails := unlink_fails env |}.

(** The number a station's [k]-th ticket carries. *)
Definition ticket_no (st : Station) (k : N) : string :=
  prefix (station_name st) ++ decimal k.

(** ** One station's part of the engine *)

(** The four values the engine keeps for a station. *)
Record Slots : Type := mkSlots {
  s_waiting : list Ticket;        (* queues[station] *)
  s_current : option Ticket;      (* currentServing[station] *)
  s_last : option Ticket;         (* lastServed[station] *)
  s_counter : N                   (* queueNumbers[station] *)
}.

Definition slots (st : Station) (m : Engine) : Slots :=
  {| s_waiting := get st (queues m);
     s_current := get st (currentServing m);
     s_last := get st (lastServed m);
     s_counter := get st (queueNumbers m) |}.

(** What one request can do to a station's slots. *)
Inductive transition (st : Station) : Request -> Slots -> Slots -> Prop :=
| t_same : forall r a,
    r <> PostResetQueue ->
    transition st r a a
| t_enqueued : forall now a,
    (length (s_waiting a) < maxQueueLength)%nat ->
    transition st (PostQueue (station_name st) now) a
      {| s_waiting := s_waiting a ++
           [mkTicket (ticket_no st (s_counter a + 1)) (station_name st) now];
         s_current := s_current a;
         s_last := s_last a;
         s_counter := s_counter a + 1 |}
| t_dropped : forall now a,
    (maxQueueLength <= length (s_waiting a))%nat ->
    transition st (PostQueue (station_name st) now) a
      {| s_waiting := s_waiting a;
         s_current := s_current a;
         s_last := s_last a;
         s_counter := s_counter a + 1 |}
| t_called : forall a t rest,
    s_waiting a = t :: rest ->
    transition st (PostCall (station_name st)) a
      {| s_waiting := rest;
         s_current := Some t;
         s_last := Some t;
         s_counter := s_counter a |}
| t_recalled : forall a t,
    s_last a = Some t ->
    transition st (PostRecall (station_name st)) a
      {| s_waiting := s_waiting a;
         s_current := Some t;
         s_last := s_last a;
         s_counter := s_counter a |}
| t_reset : forall a,
    transition st PostResetQueue a
      {| s_waiting := []; s_current := None; s_last := None; s_counter := 0 |}.

(** The numbering discipline of a station: the waiting tickets carry strictly
    increasing sequence values up to the counter, the ticket being served
    carries a smaller one, and the last served ticket is the one being
    served. *)
Definition numbered (st : Station) (a : Slots) : Prop :=
  exists ks : list N,
    map number (s_waiting a) = map (ticket_no st) ks /\
    StronglySorted N.lt ks /\
    Forall (fun k => k <= s_counter a) ks /\
    s_last a = s_current a /\
    forall t, s_current a = Some t ->
      exists k, number t = ticket_no st k /\ k <= s_counter a /\ Forall (N.lt k) ks.

(** A handler run that leaves the four station objects as they are. *)
Definition keeps_stations (w w' : World) : Prop :=
  queues (mem w') = queues (mem w) /\
  currentServing (mem w') = currentServing (mem w) /\
  lastServed (mem w') = lastServed (mem w) /\
  queueNumbers (mem w') = queueNumbers (mem w).

(** ** Runs of requests *)

(** The number that a request makes [generateQueueNumber] produce for a
    given station, if any. *)
Definition minted (st : Station) (r : Request) (w : World) : list string :=
  match r with
  | PostQueue service _ =>
      match lookup_key service with
      | KStation st' =>
          if Station_eqb st st' then
            match fst (generateQueueNumber service w) with
            | Normal n => [n]
            | Throw _ => []
            end
          else []
      | _ => []
      end
  | _ => []
  end.

(** The numbers produced for a station along a run of requests, in order. *)
Fixpoint issued (st : Station) (run : list (Env * Request)) (w : World) : list string :=
  match run with
  | [] => []
  | (env, r) :: rest => (minted st r w ++ issued st rest (after env r w))%list
  end.

(** The world at the end of a run of requests. *)
Fixpoint exec (run : list (Env * Request)) (w : World) : World :=
  match run with
  | [] => w
  | (env, r) :: rest => exec rest (after env r w)
  end.

(** The ticket that a request stores in [currentServing] at a given station,
    if any: [callNextNumber] stores the head of the waiting list, [/recall]
    the last served ticket. *)
Definition placed (st : Station) (r : Request) (w : World) : option Ticket :=
  match r with
  | PostCall service =>
      match lookup_key service with
      | KStation st' =>
          if Station_eqb st st' then hd_error (get st (queues (mem w))) else None
      | _ => None
      end
  | PostRecall service =>
      match lookup_key service with
      | KStation st' =>
          if Station_eqb st st' then get st (lastServed (mem w)) else None
      | _ => None
      end
  | _ => None
  end.

(** The most recent ticket stored in [currentServing] at a station along a
    run that starts in [w] with [g] the most recent one so far; a reset
    starts over with none. *)
Fixpoint last_placed (st : Station) (run : list (Env * Request)) (w : World)
    (g : option Ticket) : option Ticket :=
  match run with
  | [] => g
  | (env, r) :: rest =>
      last_placed st rest (after env r w)
        match r with
        | PostResetQueue => None
        | _ => match placed st r w with
               | Some t => Some t
               | None => g
               end
        end
  end.

Definition no_reset (run : list (Env * Request)) : Prop :=
  Forall (fun er => snd er <> PostResetQueue) run.

(** ** Runs seen from outside *)

(** What the handlers of a run answer, request by request. *)
Fixpoint responses (run : list (Env * Request)) (w : World) : list (Completion Response) :=
  match run with
  | [] => []
  | (env, r) :: rest => fst (handle env r w) :: responses rest (after env r w)
  end.


(** The station key a request carries, if it carries one. *)
Definition names (r : Request) : option string :=
  match r with
  | PostQueue service _ | PostCall service | PostRecall service => Some service
  | _ => None
  end.

(** The ticket that a request takes off a waiting list, if any. *)
Definition called (r : Request) (w : World) : option Ticket :=
  match r with
  | PostCall service =>
      match lookup_key service with
      | KStation st => hd_error (get st (queues (mem w)))
      | _ => None
      end
  | _ => None
  end.


(** The names that every object literal inherits from [Object.prototype]:
    the accessor [__proto__] and the eleven functions. *)
Definition inherited_names : list string :=
  "__proto__" :: map fst object_prototype_functions.

(** A snapshot file that holds, field by field, what [saveState] writes of
    the engine [m]: the eight state variables, without the function-valued
    keys of [currentServing] (which [JSON.stringify] leaves out). *)
Definition file_holds (f m : Engine) : Prop :=
  queues f = queues m /\
  currentServing f = currentServing m /\
  currentServingFns f = [] /\
  lastServed f = lastServed m /\
  queueNumbers f = queueNumbers m /\
  queueNumbersNaN f = queueNumbersNaN m /\
  servedHistory f = servedHistory m /\
  totalServed f = totalServed m /\
  totalWaitTime f = totalWaitTime m /\
  currentAnnouncement f = currentAnnouncement m.


(** * Properties *)

(** ** Keys, objects and numbers *)

Lemma lookup_key_station (st : Station) : lookup_key (station_name st) = KStation st.
Proof. destruct st; reflexivity. Qed.

Lemma lookup_key_station_inv (service : string) (st : Station) :
  lookup_key service = KStation st -> service = station_name st.
Proof.
  unfold lookup_key.
  destruct (String.eqb_spec service "Charging") as [-> | _]; [intros [= <-]; reflexivity |].
  destruct (String.eqb_spec service "Releasing") as [-> | _]; [intros [= <-]; reflexivity |].
  destruct (String.eqb_spec service "Extraction") as [-> | _]; [intros [= <-]; reflexivity |].
  destruct (String.eqb service "__proto__"); [discriminate |].
  destruct (assoc service object_prototype_functions); discriminate.
Qed.

Lemma lookup_key_not_station (service : string) :
  (forall st, service <> station_name st) ->
  forall st, lookup_key service <> KStation st.
Proof.
  intros H st K. apply (H st). now apply lookup_key_station_inv.
Qed.

Lemma Station_eq_dec (a b : Station) : {a = b} + {a <> b}.
Proof. decide equality. Defined.

Lemma Request_reset_dec (r : Request) : {r = PostResetQueue} + {r <> PostResetQueue}.
Proof. destruct r; (now left) || (right; discriminate). Defined.

Lemma get_set_same {A} (st : Station) (v : A) (o : PerStation A) :
  get st (set st v o) = v.
Proof. destruct st; reflexivity. Qed.

Lemma get_set_other {A} (st st' : Station) (v : A) (o : PerStation A) :
  st <> st' -> get st (set st' v o) = get st o.
Proof. destruct st, st'; intros H; try reflexivity; now elim H. Qed.

Lemma get_every {A} (st : Station) (v : A) : get st (every v) = v.
Proof. destruct st; reflexivity. Qed.

Lemma decimal_inj (a b : N) : decimal a = decimal b -> a = b.
Proof.
  unfold decimal. intros H.
  apply DecimalN.Unsigned.to_uint_inj.
  apply (f_equal NilEmpty.uint_of_string) in H.
  rewrite !NilEmpty.usu in H. now injection H.
Qed.

Lemma ticket_no_inj (st : Station) (a b : N) :
  ticket_no st a = ticket_no st b -> a = b.
Proof.
  unfold ticket_no. destruct st; cbn; intros [= H]; now apply decimal_inj.
Qed.

(** The prefix of a station's numbers is the first letter of its name. *)
Lemma prefix_station (st : Station) :
  prefix (station_name st) = substring 0 1 (station_name st).
Proof. destruct st; reflexivity. Qed.

(** ** Calling the next ticket *)

(** C1. [/call] has no check of the station name: for every string that is
    not one of the three station names, [callNextNumber] applies [.shift()]
    to [undefined] or to an inherited member of [Object.prototype], and the
    handler ends in a TypeError with the world untouched.  It never answers
    with the "Invalid service" error that [/queue] gives for such input. *)
Theorem post_call_unconfigured_throws (env : Env) (service : string) (w : World) :
  (forall st, service <> station_name st) ->
  handle env (PostCall service) w = (Throw TypeError, w).
Proof.
  intros H. pose proof (lookup_key_not_station service H) as K.
  cbn. unfold post_call, callNextNumber.
  destruct (lookup_key service) as [st | n | |]; [now elim (K st) | | |]; reflexivity.
Qed.

Lemma post_call_unconfigured_throws_witness :
  handle fs_ok (PostCall "Foo") initial = (Throw TypeError, initial).
Proof.
  apply (post_call_unconfigured_throws fs_ok "Foo" initial).
  intros st; destruct st; discriminate.
Defined.

(** The check that [/call] lacks is the one [/queue] starts with: a key that
    finds nothing in [queues] is answered with "Invalid service", the world
    untouched. *)
Lemma post_queue_unconfigured (env : Env) (service : string) (now : N) (w : World) :
  lookup_key service = KNone ->
  handle env (PostQueue service now) w = (Normal InvalidService, w).
Proof.
  intros K. cbn [handle]. unfold post_queue. now rewrite K.
Qed.

(** A key inherited from [Object.prototype] gets past that check: the
    enqueue ends in a TypeError at [.push], after [NaN] was stored in
    [queueNumbers]. *)
Lemma post_queue_inherited :
  fst (handle fs_ok (PostQueue "constructor" 1) initial) = Throw TypeError /\
  queueNumbersNaN (mem (after fs_ok (PostQueue "constructor" 1) initial))
  = ["constructor"].
Proof. split; reflexivity. Qed.

(** C4. At a station whose waiting list is empty, [/call] answers
    [{ current: null }] and leaves the whole world as it was: the engine
    (so [currentServing], [lastServed], [servedHistory], [totalServed] and
    [totalWaitTime]), the snapshot file, the messages sent and the console. *)
Theorem post_call_empty (env : Env) (st : Station) (w : World) :
  get st (queues (mem w)) = [] ->
  handle env (PostCall (station_name st)) w = (Normal (Current None), w).
Proof.
  intros H. cbn. unfold post_call, callNextNumber.
  rewrite lookup_key_station. unfold bind, gets. now rewrite H.
Qed.

Lemma post_call_empty_witness :
  handle fs_ok (PostCall "Releasing") initial = (Normal (Current None), initial).
Proof.
  apply (post_call_empty fs_ok Releasing initial). reflexivity.
Defined.

(** ** Handlers at a station, as equations *)

Section AtStation.
Variables (env : Env) (st : Station) (w : World).

Lemma generateQueueNumber_station :
  let n := get st (queueNumbers (mem w)) + 1 in
  generateQueueNumber (station_name st) w =
  (Normal (ticket_no st n),
   mkWorld (set_queueNumbers (set st n (queueNumbers (mem w))) (mem w))
           (data_file w) (sent w) (console w)).
Proof.
  unfold generateQueueNumber. rewrite lookup_key_station. reflexivity.
Qed.

Lemma post_queue_station (now : N) :
  let q := get st (queues (mem w)) in
  let n := get st (queueNumbers (mem w)) + 1 in
  let user := mkTicket (ticket_no st n) (station_name st) now in
  let m1 := set_queueNumbers (set st n (queueNumbers (mem w))) (mem w) in
  let m2 := set_queues (set st (q ++ [user])%list (queues m1)) m1 in
  handle env (PostQueue (station_name st) now) w =
  if Nat.ltb (length q) maxQueueLength then
    if write_fails env
    then (Throw WriteError, mkWorld m2 (data_file w) (sent w) (console w))
    else (Normal (Number (ticket_no st n)),
          mkWorld m2 (Some (snapshot m2)) (sent w) (console w))
  else
    (Normal (Number (ticket_no st n)),
     mkWorld m1 (data_file w) (sent w)
             (console w ++ ["Queue for " ++ station_name st ++ " is full."])).
Proof.
  cbn zeta. cbn [handle]. unfold post_queue.
  rewrite lookup_key_station. unfold bind at 1.
  rewrite generateQueueNumber_station.
  unfold addToQueue. rewrite lookup_key_station.
  unfold bind, gets, modify, saveState, console_line, ret;
    cbn -[Nat.ltb maxQueueLength String.append].
  destruct (Nat.ltb (length (get st (queues (mem w)))) maxQueueLength);
    [| reflexivity].
  destruct (write_fails env); reflexivity.
Qed.

Lemma post_call_station :
  handle env (PostCall (station_name st)) w =
  match get st (queues (mem w)) with
  | [] => (Normal (Current None), w)
  | nextUser :: rest =>
      let m' :=
        mkEngine (set st rest (queues (mem w)))
                 (set st (Some nextUser) (currentServing (mem w)))
                 (currentServingFns (mem w))
                 (set st (Some nextUser) (lastServed (mem w)))
                 (queueNumbers (mem w)) (queueNumbersNaN (mem w))
                 (servedHistory (mem w) ++ [nextUser])
                 (totalServed (mem w) + 1)
                 (totalWaitTime (mem w) + averageServiceTime)
                 (currentAnnouncement (mem w)) in
      let message :=
        "Now serving number " ++ number nextUser ++ " at " ++ station_name st in
      if write_fails env
      then (Throw WriteError,
            mkWorld m' (data_file w) (sent w ++ [message]) (console w))
      else (Normal (Current (Some (number nextUser))),
            mkWorld m' (Some (snapshot m')) (sent w ++ [message]) (console w))
  end.
Proof.
  cbn [handle]. unfold post_call, callNextNumber.
  rewrite lookup_key_station.
  unfold bind, gets, modify, notifyClients, saveState, ret; cbn.
  destruct (get st (queues (mem w))) as [| nextUser rest]; [reflexivity |].
  cbn. destruct (write_fails env); reflexivity.
Qed.

Lemma post_recall_station :
  handle env (PostRecall (station_name st)) w =
  match get st (lastServed (mem w)) with
  | None => (Normal NothingToRecall, w)
  | Some lastUser =>
      let m' := set_currentServing (set st (Some lastUser) (currentServing (mem w))) (mem w) in
      let message :=
        "Now serving number " ++ number lastUser ++ " at " ++ station_name st in
      if write_fails env
      then (Throw WriteError,
            mkWorld m' (data_file w) (sent w ++ [message]) (console w))
      else (Normal (LastNumber (Some (number lastUser))),
            mkWorld m' (Some (snapshot m')) (sent w ++ [message]) (console w))
  end.
Proof.
  cbn [handle]. unfold post_recall.
  rewrite lookup_key_station.
  unfold bind, gets, modify, notifyClients, saveState, ret; cbn.
  destruct (get st (lastServed (mem w))) as [lastUser |]; [| reflexivity].
  cbn. destruct (write_fails env); reflexivity.
Qed.
End AtStation.

Lemma post_reset_queue_eq (env : Env) (w : World) :
  handle env PostResetQueue w =
  (Normal ResetDone,
   match data_file w with
   | Some f =>
       if unlink_fails env
       then mkWorld fresh (Some f) (sent w)
              ((console w ++ ["Queue has been reset."]) ++
               ["Failed to remove saved queue file:"])
       else mkWorld fresh None (sent w) (console w ++ ["Queue has been reset."])
   | None =>
       mkWorld fresh None (sent w)
         ((console w ++ ["Queue has been reset."]) ++
          ["Failed to remove saved queue file:"])
   end).
Proof.
  cbn [handle]. unfold post_reset_queue, bind, modify, console_line, unlink_data_file, ret.
  cbn. destruct (data_file w); [destruct (unlink_fails env) |]; reflexivity.
Qed.

Lemma post_reset_queue_mem (env : Env) (w : World) :
  mem (after env PostResetQueue w) = fresh.
Proof.
  unfold after. rewrite post_reset_queue_eq. cbn [snd].
  destruct (data_file w); [destruct (unlink_fails env) |]; reflexivity.
Qed.

(** ** Enqueue at and below capacity *)

(** A station's queue filled by one hundred enqueues from a fresh start. *)
Lemma full_queue_reachable :
  reachable (Nat.iter 100 (after fs_ok (PostQueue "Charging" 9)) initial).
Proof.
  generalize 100%nat. intros k. induction k as [| k IH]; cbn [Nat.iter].
  - exact reachable_initial.
  - now apply reachable_after.
Qed.

(** C3. [/queue] at a station generates the number first, so the counter is
    incremented whatever the length of the waiting list.  When the list is
    already at [maxQueueLength] the ticket is not appended (only the counter
    changes in the engine, nothing is written to the snapshot file), and the
    caller still receives the new number with no error.  Below capacity, with
    a write that succeeds, the ticket is appended at the tail, the caller
    receives its number and the snapshot file holds the full new state: the
    waiting lists with the new ticket at the tail of the station's, the
    counters with the station's new value, and every other state variable
    as the engine has it. *)
Theorem post_queue_capacity (env : Env) (st : Station) (now : N) (w : World) :
  let q := get st (queues (mem w)) in
  let n := get st (queueNumbers (mem w)) + 1 in
  let user := mkTicket (ticket_no st n) (station_name st) now in
  let r := handle env (PostQueue (station_name st) now) w in
  get st (queueNumbers (mem (snd r))) = n /\
  ((maxQueueLength <= length q)%nat ->
     fst r = Normal (Number (ticket_no st n)) /\
     mem (snd r) = set_queueNumbers (set st n (queueNumbers (mem w))) (mem w) /\
     queues (mem (snd r)) = queues (mem w) /\
     data_file (snd r) = data_file w /\
     sent (snd r) = sent w) /\
  ((length q < maxQueueLength)%nat -> write_fails env = false ->
     fst r = Normal (Number (ticket_no st n)) /\
     get st (queues (mem (snd r))) = (q ++ [user])%list /\
     exists f,
       data_file (snd r) = Some f /\
       queues f = set st (q ++ [user])%list (queues (mem w)) /\
       queues f = queues (mem (snd r)) /\
       queueNumbers f = set st n (queueNumbers (mem w)) /\
       queueNumbers f = queueNumbers (mem (snd r)) /\
       queueNumbersNaN f = queueNumbersNaN (mem w) /\
       currentServing f = currentServing (mem w) /\
       currentServingFns f = [] /\
       lastServed f = lastServed (mem w) /\
       servedHistory f = servedHistory (mem w) /\
       totalServed f = totalServed (mem w) /\
       totalWaitTime f = totalWaitTime (mem w) /\
       currentAnnouncement f = currentAnnouncement (mem w)).
Proof.
  intros q n user r. subst r. rewrite post_queue_station. fold q n user.
  split; [| split].
  - destruct (Nat.ltb (length q) maxQueueLength); [destruct (write_fails env) |];
      cbn; now rewrite get_set_same.
  - intros Hfull. apply Nat.ltb_ge in Hfull. rewrite Hfull. cbn.
    repeat split; reflexivity.
  - intros Hroom Hw. apply Nat.ltb_lt in Hroom. rewrite Hroom, Hw.
    cbn [fst snd mem data_file]. split; [reflexivity |].
    split; [cbn; now rewrite get_set_same |].
    eexists. split; [reflexivity |]. cbn. repeat split; reflexivity.
Qed.

Lemma post_queue_capacity_witness :
  let full := Nat.iter 100 (after fs_ok (PostQueue "Charging" 9)) initial in
  (fst (handle fs_ok (PostQueue "Charging" 9) full) = Normal (Number "C101") /\
   queues (mem (after fs_ok (PostQueue "Charging" 9) full)) = queues (mem full)) /\
  fst (handle fs_ok (PostQueue "Charging" 9) initial) = Normal (Number "C1") /\
  exists f,
    data_file (after fs_ok (PostQueue "Charging" 9) initial) = Some f /\
    get Charging (queues f) = [mkTicket "C1" "Charging" 9] /\
    get Charging (queueNumbers f) = 1.
Proof.
  intros full. split.
  - destruct (post_queue_capacity fs_ok Charging 9 full) as [_ [H _]].
    assert (Hfull : (maxQueueLength <= length (get Charging (queues (mem full))))%nat)
      by (vm_compute; apply le_n).
    destruct (H Hfull) as [H1 [_ [H3 _]]]. split; [exact H1 | exact H3].
  - destruct (post_queue_capacity fs_ok Charging 9 initial) as [_ [_ H]].
    assert (Hroom : (length (get Charging (queues (mem initial))) < maxQueueLength)%nat)
      by (vm_compute; repeat constructor).
    destruct (H Hroom eq_refl) as (H1 & _ & f & Hf & Hq & _ & Hn & _).
    split; [exact H1 |]. exists f. split; [exact Hf |].
    rewrite Hq, Hn. split; reflexivity.
Defined.

(** ** Failing writes *)

Lemma persists_station (r : Request) (w : World) :
  persists r w = true ->
  match r with
  | PostQueue service _ | PostCall service => exists st, service = station_name st
  | _ => True
  end.
Proof.
  destruct r as [| service now | service | | | | |]; cbn; trivial;
    destruct (lookup_key service) as [st | | |] eqn:K; try discriminate;
    intros _; exists st; now apply lookup_key_station_inv.
Qed.

(** A request whose handler does not reach [saveState()] runs the same way
    whatever the file system does with writes. *)
Lemma no_write_without_persists (env : Env) (r : Request) (w : World) :
  persists r w = false -> handle env r w = handle (writing env) r w.
Proof.
  destruct r as [| service now | service | service | a | | |]; cbn [persists];
    try reflexivity; try discriminate.
  - destruct (lookup_key service) as [st | k | |] eqn:K.
    + apply lookup_key_station_inv in K; subst service. intros Hp.
      rewrite !post_queue_station. cbn zeta. rewrite Hp. reflexivity.
    + intros _. cbn [handle]. unfold post_queue, addToQueue. rewrite K. reflexivity.
    + intros _. cbn [handle]. unfold post_queue, addToQueue. rewrite K. reflexivity.
    + intros _. cbn [handle]. unfold post_queue. rewrite K. reflexivity.
  - destruct (lookup_key service) as [st | k | |] eqn:K.
    + apply lookup_key_station_inv in K; subst service.
      rewrite !post_call_station.
      destruct (get st (queues (mem w))); [reflexivity | discriminate].
    + intros _. cbn [handle]. unfold post_call, callNextNumber. rewrite K. reflexivity.
    + intros _. cbn [handle]. unfold post_call, callNextNumber. rewrite K. reflexivity.
    + intros _. cbn [handle]. unfold post_call, callNextNumber. rewrite K. reflexivity.
  - destruct (lookup_key service) as [st | k | |] eqn:K; try discriminate.
    + apply lookup_key_station_inv in K; subst service.
      rewrite !post_recall_station.
      destruct (get st (lastServed (mem w))); [discriminate | reflexivity].
    + intros _. cbn [handle]. unfold post_recall. rewrite K. reflexivity.
Qed.

(** C2, as the spec has it, fails: with the snapshot file not writable, a
    first enqueue at Charging ends in the error thrown by [fs.writeFileSync]
    where the same request answers [{ number: "C1" }] otherwise. *)
Lemma write_failure_reaches_caller :
  fst (handle fs_write_error (PostQueue "Charging" 1) initial) = Throw WriteError /\
  fst (handle fs_ok (PostQueue "Charging" 1) initial) = Normal (Number "C1") /\
  fst (handle fs_write_error (PostQueue "Charging" 1) initial)
    <> fst (handle fs_ok (PostQueue "Charging" 1) initial).
Proof.
  repeat split; try reflexivity. vm_compute. discriminate.
Qed.

(** C2, amended.  For every request whose handler reaches [saveState()]
    (enqueue below capacity, call with a waiting ticket, recall with a last
    served value, set-announcement): when the write fails the handler ends in
    the error thrown by the write instead of its response, while the engine
    state and the messages broadcast are those of the same request with a
    write that succeeds. *)
Theorem write_failure_propagates (env : Env) (r : Request) (w : World) :
  write_fails env = true -> persists r w = true ->
  fst (handle env r w) = Throw WriteError /\
  (exists response, fst (handle (writing env) r w) = Normal response) /\
  mem (after env r w) = mem (after (writing env) r w) /\
  sent (after env r w) = sent (after (writing env) r w) /\
  console (after env r w) = console w.
Proof.
  intros Hw Hp. pose proof (persists_station r w Hp) as Hst. unfold after.
  destruct r as [| service now | service | service | a | | |]; try discriminate.
  - destruct Hst as [st ->]. cbn [persists] in Hp. rewrite lookup_key_station in Hp.
    rewrite !post_queue_station. cbn zeta. rewrite Hp, Hw. cbn.
    repeat split; eauto.
  - destruct Hst as [st ->]. cbn [persists] in Hp. rewrite lookup_key_station in Hp.
    rewrite !post_call_station.
    destruct (get st (queues (mem w))) as [| t rest]; [discriminate |].
    cbn zeta. rewrite Hw. cbn. repeat split; eauto.
  - cbn [persists] in Hp. cbn [handle]. unfold post_recall.
    destruct (lookup_key service) as [st | k | |] eqn:K; try discriminate.
    + destruct (get st (lastServed (mem w))) as [t |] eqn:L; [| discriminate].
      unfold bind, gets, modify, notifyClients, saveState, ret; cbn.
      rewrite L, Hw. cbn. repeat split; eauto.
    + unfold bind, gets, modify, notifyClients, saveState, ret; cbn.
      rewrite Hw. cbn. repeat split; eauto.
    + unfold bind, gets, modify, notifyClients, saveState, ret; cbn.
      rewrite Hw. cbn. repeat split; eauto.
  - cbn [handle]. unfold post_announcement.
    unfold bind, gets, modify, notifyClients, saveState, ret; cbn.
    rewrite Hw. cbn. repeat split; eauto.
Qed.

Lemma write_failure_propagates_witness :
  fst (handle fs_write_error (PostCall "Charging")
         (after fs_ok (PostQueue "Charging" 1) initial)) = Throw WriteError /\
  mem (after fs_write_error (PostCall "Charging")
         (after fs_ok (PostQueue "Charging" 1) initial))
  = mem (after fs_ok (PostCall "Charging")
         (after fs_ok (PostQueue "Charging" 1) initial)).
Proof.
  destruct (write_failure_propagates fs_write_error (PostCall "Charging")
              (after fs_ok (PostQueue "Charging" 1) initial) eq_refl eq_refl)
    as [H1 [_ [H3 _]]].
  split; [exact H1 | exact H3].
Defined.

(** ** Every request acts on a station by one of the transitions *)

Lemma slots_ext (st : Station) (m m' : Engine) :
  queues m' = queues m -> currentServing m' = currentServing m ->
  lastServed m' = lastServed m -> queueNumbers m' = queueNumbers m ->
  slots st m' = slots st m.
Proof. unfold slots. now intros -> -> -> ->. Qed.

Lemma keeps_stations_slots (st : Station) (w w' : World) :
  keeps_stations w w' -> slots st (mem w') = slots st (mem w).
Proof. intros (? & ? & ? & ?). now apply slots_ext. Qed.

(** Requests that name no station leave the station objects alone, also when
    the key is inherited from [Object.prototype]. *)
Ltac kept := cbn; repeat split; reflexivity.

Lemma off_station_keeps (env : Env) (r : Request) (w : World) :
  match r with
  | PostQueue service _ | PostCall service | PostRecall service =>
      forall st, lookup_key service <> KStation st
  | PostResetQueue => False
  | _ => True
  end ->
  keeps_stations w (after env r w).
Proof.
  unfold after, keeps_stations.
  destruct r as [| service now | service | service | a | | |]; cbn [handle].
  - intros _. kept.
  - intros K. unfold post_queue, generateQueueNumber, addToQueue.
    destruct (lookup_key service) as [st | k | |]; [now elim (K st) | | |].
    + unfold bind, modify, throw, console_line, ret; cbn -[Nat.ltb maxQueueLength].
      destruct (Nat.ltb k maxQueueLength); kept.
    + kept.
    + kept.
  - intros K. unfold post_call, callNextNumber.
    destruct (lookup_key service) as [st | k | |]; [now elim (K st) | | |]; kept.
  - intros K. unfold post_recall.
    destruct (lookup_key service) as [st | k | |]; [now elim (K st) | | |];
      unfold bind, modify, notifyClients, saveState, ret; cbn;
      destruct (write_fails env); kept.
  - intros _. unfold post_announcement, bind, modify, notifyClients, saveState, ret; cbn.
    destruct (write_fails env); kept.
  - intros _. kept.
  - intros [].
  - intros _. unfold get_export, bind, gets, ret. cbn -[csvData].
    destruct (csvData (mem w)); kept.
Qed.

Lemma station_name_inj (st st' : Station) :
  station_name st = station_name st' -> st = st'.
Proof. destruct st, st'; (reflexivity || discriminate). Qed.

Lemma after_transition (env : Env) (r : Request) (w : World) (st : Station) :
  transition st r (slots st (mem w)) (slots st (mem (after env r w))).
Proof.
  assert (Same : forall r', r' <> PostResetQueue ->
                 slots st (mem (after env r' w)) = slots st (mem w) ->
                 transition st r' (slots st (mem w)) (slots st (mem (after env r' w)))).
  { intros r' Hr ->. now apply t_same. }
  assert (Off : forall r', r' <> PostResetQueue -> keeps_stations w (after env r' w) ->
                transition st r' (slots st (mem w)) (slots st (mem (after env r' w)))).
  { intros r' Hr Hk. apply Same; [assumption | now apply keeps_stations_slots]. }
  destruct r as [| service now | service | service | a | | |].
  - apply Off; [discriminate | now apply off_station_keeps].
  - destruct (lookup_key service) as [st' | k | |] eqn:K.
    + apply lookup_key_station_inv in K; subst service.
      destruct (Station_eq_dec st st') as [<- | Hne].
      * unfold after. rewrite post_queue_station. cbn zeta.
        destruct (Nat.ltb_spec (length (get st (queues (mem w)))) maxQueueLength)
          as [Hlt | Hge].
        -- replace (slots st (mem (snd _))) with
             {| s_waiting := s_waiting (slots st (mem w)) ++
                  [mkTicket (ticket_no st (s_counter (slots st (mem w)) + 1))
                            (station_name st) now];
                s_current := s_current (slots st (mem w));
                s_last := s_last (slots st (mem w));
                s_counter := s_counter (slots st (mem w)) + 1 |}.
           ++ now apply t_enqueued.
           ++ destruct (write_fails env); unfold slots; cbn; now rewrite !get_set_same.
        -- replace (slots st (mem (snd _))) with
             {| s_waiting := s_waiting (slots st (mem w));
                s_current := s_current (slots st (mem w));
                s_last := s_last (slots st (mem w));
                s_counter := s_counter (slots st (mem w)) + 1 |}.
           ++ now apply t_dropped.
           ++ unfold slots; cbn; now rewrite !get_set_same.
      * apply Same; [discriminate |].
        unfold after. rewrite post_queue_station. cbn zeta.
        destruct (Nat.ltb _ _); [destruct (write_fails env) |];
          unfold slots; cbn; now rewrite ?get_set_other by assumption.
    + apply Off; [discriminate |]. apply off_station_keeps. rewrite K. discriminate.
    + apply Off; [discriminate |]. apply off_station_keeps. rewrite K. discriminate.
    + apply Off; [discriminate |]. apply off_station_keeps. rewrite K. discriminate.
  - destruct (lookup_key service) as [st' | k | |] eqn:K.
    + apply lookup_key_station_inv in K; subst service.
      destruct (Station_eq_dec st st') as [<- | Hne].
      * unfold after. rewrite post_call_station.
        destruct (get st (queues (mem w))) as [| t rest] eqn:Q.
        -- cbn [snd]. apply t_same. discriminate.
        -- replace (slots st (mem (snd _))) with
             {| s_waiting := rest; s_current := Some t; s_last := Some t;
                s_counter := s_counter (slots st (mem w)) |}.
           ++ apply t_called. exact Q.
           ++ cbn zeta. destruct (write_fails env); unfold slots; cbn;
                now rewrite !get_set_same.
      * apply Same; [discriminate |].
        unfold after. rewrite post_call_station.
        destruct (get st' (queues (mem w))); [reflexivity |].
        cbn zeta. destruct (write_fails env);
          unfold slots; cbn; now rewrite ?get_set_other by assumption.
    + apply Off; [discriminate |]. apply off_station_keeps. rewrite K. discriminate.
    + apply Off; [discriminate |]. apply off_station_keeps. rewrite K. discriminate.
    + apply Off; [discriminate |]. apply off_station_keeps. rewrite K. discriminate.
  - destruct (lookup_key service) as [st' | k | |] eqn:K.
    + apply lookup_key_station_inv in K; subst service.
      destruct (Station_eq_dec st st') as [<- | Hne].
      * unfold after. rewrite post_recall_station.
        destruct (get st (lastServed (mem w))) as [t |] eqn:L.
        -- replace (slots st (mem (snd _))) with
             {| s_waiting := s_waiting (slots st (mem w));
                s_current := Some t;
                s_last := s_last (slots st (mem w));
                s_counter := s_counter (slots st (mem w)) |}.
           ++ apply t_recalled. exact L.
           ++ cbn zeta. destruct (write_fails env); unfold slots; cbn;
                now rewrite !get_set_same.
        -- cbn [snd]. apply t_same. discriminate.
      * apply Same; [discriminate |].
        unfold after. rewrite post_recall_station.
        destruct (get st' (lastServed (mem w))); [| reflexivity].
        cbn zeta. destruct (write_fails env);
          unfold slots; cbn; now rewrite ?get_set_other by assumption.
    + apply Off; [discriminate |]. apply off_station_keeps. rewrite K. discriminate.
    + apply Off; [discriminate |]. apply off_station_keeps. rewrite K. discriminate.
    + apply Off; [discriminate |]. apply off_station_keeps. rewrite K. discriminate.
  - apply Off; [discriminate | now apply off_station_keeps].
  - apply Off; [discriminate | now apply off_station_keeps].
  - rewrite post_reset_queue_mem. destruct st; apply t_reset.
  - apply Off; [discriminate | now apply off_station_keeps].
Qed.

(** ** The numbering discipline is an invariant *)

Lemma sorted_snoc (ks : list N) (c : N) :
  StronglySorted N.lt ks -> Forall (fun k => k <= c) ks ->
  StronglySorted N.lt (ks ++ [c + 1]).
Proof.
  induction 1 as [| k ks Hs IH Hk]; intros Hc; cbn.
  - repeat constructor.
  - inversion Hc as [| ? ? Hkc Hrest]; subst. constructor.
    + now apply IH.
    + apply Forall_app. split; [assumption |]. constructor; [lia | constructor].
Qed.

Lemma numbered_fresh (st : Station) : numbered st (slots st fresh).
Proof.
  exists []. unfold slots, fresh; cbn. rewrite !get_every.
  repeat split; try constructor. discriminate.
Qed.

Lemma numbered_transition (st : Station) (r : Request) (a b : Slots) :
  transition st r a b -> numbered st a -> numbered st b.
Proof.
  intros T (ks & Hmap & Hsorted & Hle & Hlast & Hcur).
  destruct T as [r a _ | now a _ | now a _ | a t rest Hq | a t Hl | a]; cbn.
  - exists ks. auto.
  - exists (ks ++ [s_counter a + 1])%list. cbn. repeat split.
    + rewrite !map_app, Hmap. reflexivity.
    + now apply sorted_snoc.
    + apply Forall_app. split.
      * eapply Forall_impl; [| exact Hle]. cbn. intros; lia.
      * constructor; [lia | constructor].
    + assumption.
    + intros t Ht. destruct (Hcur t Ht) as (k & Hn & Hk & Hlt).
      exists k. repeat split; [assumption | lia |].
      apply Forall_app. split; [assumption |]. constructor; [lia | constructor].
  - exists ks. cbn. repeat split; try assumption.
    + eapply Forall_impl; [| exact Hle]. cbn. intros; lia.
    + intros t Ht. destruct (Hcur t Ht) as (k & Hn & Hk & Hlt).
      exists k. repeat split; [assumption | lia | assumption].
  - rewrite Hq in Hmap. destruct ks as [| k ks]; [discriminate |].
    cbn in Hmap. injection Hmap as Hn Hrest.
    inversion Hsorted as [| ? ? Hs Hlt]; subst.
    inversion Hle as [| ? ? Hk Hle']; subst.
    exists ks. cbn. repeat split; try assumption.
    intros t' [= <-]. exists k. repeat split; assumption.
  - exists ks. cbn. repeat split; try assumption.
    intros t' [= <-]. apply Hcur. now rewrite <- Hlast.
  - exists []. cbn. repeat split; try constructor. discriminate.
Qed.

Lemma reachable_numbered (w : World) :
  reachable w -> forall st, numbered st (slots st (mem w)).
Proof.
  induction 1 as [| env r w _ IH]; intros st.
  - apply numbered_fresh.
  - eapply numbered_transition; [apply after_transition | apply IH].
Qed.

Lemma numbered_current_not_waiting (st : Station) (a : Slots) (t : Ticket) :
  numbered st a -> s_current a = Some t -> ~ In t (s_waiting a).
Proof.
  intros (ks & Hmap & _ & _ & _ & Hcur) Ht Hin.
  destruct (Hcur t Ht) as (k & Hn & _ & Hlt).
  apply (in_map number) in Hin. rewrite Hmap, Hn in Hin.
  apply in_map_iff in Hin. destruct Hin as (k' & Heq & Hin').
  apply ticket_no_inj in Heq. subst k'.
  rewrite Forall_forall in Hlt. specialize (Hlt k Hin'). lia.
Qed.

(** ** Serving *)

Lemma exec_reachable (run : list (Env * Request)) (w : World) :
  reachable w -> reachable (exec run w).
Proof.
  revert w. induction run as [| [env r] run IH]; intros w Hw; cbn [exec].
  - exact Hw.
  - apply IH. now apply reachable_after.
Qed.

Lemma Station_eqb_refl (st : Station) : Station_eqb st st = true.
Proof. now destruct st. Qed.

Lemma Station_eqb_neq (st st' : Station) : st <> st' -> Station_eqb st st' = false.
Proof. destruct st, st'; intros H; try reflexivity; now elim H. Qed.

(** What a request other than a reset does to [currentServing] and to
    [lastServed] at a station is told by [placed]. *)
Lemma placed_after (env : Env) (r : Request) (w : World) (st : Station) :
  r <> PostResetQueue ->
  get st (currentServing (mem (after env r w)))
  = match placed st r w with
    | Some t => Some t
    | None => get st (currentServing (mem w))
    end /\
  get st (lastServed (mem (after env r w)))
  = match placed st r w with
    | Some t => Some t
    | None => get st (lastServed (mem w))
    end.
Proof.
  intros Hr.
  assert (Off : keeps_stations w (after env r w) -> placed st r w = None ->
                get st (currentServing (mem (after env r w)))
                = match placed st r w with
                  | Some t => Some t
                  | None => get st (currentServing (mem w))
                  end /\
                get st (lastServed (mem (after env r w)))
                = match placed st r w with
                  | Some t => Some t
                  | None => get st (lastServed (mem w))
                  end).
  { intros (_ & Hc & Hl & _) ->. now rewrite Hc, Hl. }
  destruct r as [| service now | service | service | a | | |];
    try (apply Off; [now apply off_station_keeps | reflexivity]);
    try (now elim Hr).
  - destruct (lookup_key service) as [st' | k | |] eqn:K.
    + apply lookup_key_station_inv in K; subst service.
      cbn [placed]. rewrite ?lookup_key_station.
      unfold after. rewrite post_queue_station. cbn zeta.
      destruct (Nat.ltb _ _); [destruct (write_fails env) |]; cbn; auto.
    + apply (Off (off_station_keeps env (PostQueue service now) w
               ltac:(intros ?; rewrite K; discriminate))). cbn [placed]. now rewrite ?K.
    + apply (Off (off_station_keeps env (PostQueue service now) w
               ltac:(intros ?; rewrite K; discriminate))). cbn [placed]. now rewrite ?K.
    + apply (Off (off_station_keeps env (PostQueue service now) w
               ltac:(intros ?; rewrite K; discriminate))). cbn [placed]. now rewrite ?K.
  - destruct (lookup_key service) as [st' | k | |] eqn:K.
    + apply lookup_key_station_inv in K; subst service.
      cbn [placed]. rewrite ?lookup_key_station.
      unfold after. rewrite post_call_station.
      destruct (Station_eq_dec st st') as [<- | Hne].
      * rewrite Station_eqb_refl.
        destruct (get st (queues (mem w))) as [| t rest]; [cbn; auto |].
        cbn zeta. destruct (write_fails env); cbn; now rewrite !get_set_same.
      * rewrite (Station_eqb_neq _ _ Hne).
        destruct (get st' (queues (mem w))) as [| t rest]; [cbn; auto |].
        cbn zeta. destruct (write_fails env); cbn;
          now rewrite !get_set_other by assumption.
    + apply (Off (off_station_keeps env (PostCall service) w
               ltac:(intros ?; rewrite K; discriminate))). cbn [placed]. now rewrite ?K.
    + apply (Off (off_station_keeps env (PostCall service) w
               ltac:(intros ?; rewrite K; discriminate))). cbn [placed]. now rewrite ?K.
    + apply (Off (off_station_keeps env (PostCall service) w
               ltac:(intros ?; rewrite K; discriminate))). cbn [placed]. now rewrite ?K.
  - destruct (lookup_key service) as [st' | k | |] eqn:K.
    + apply lookup_key_station_inv in K; subst service.
      cbn [placed]. rewrite ?lookup_key_station.
      unfold after. rewrite post_recall_station.
      destruct (Station_eq_dec st st') as [<- | Hne].
      * rewrite Station_eqb_refl.
        destruct (get st (lastServed (mem w))) as [t |] eqn:L; [| cbn; auto].
        cbn zeta. destruct (write_fails env); cbn; now rewrite !get_set_same.
      * rewrite (Station_eqb_neq _ _ Hne).
        destruct (get st' (lastServed (mem w))) as [t |]; [| cbn; auto].
        cbn zeta. destruct (write_fails env); cbn;
          now rewrite ?get_set_other by assumption.
    + apply (Off (off_station_keeps env (PostRecall service) w
               ltac:(intros ?; rewrite K; discriminate))). cbn [placed]. now rewrite ?K.
    + apply (Off (off_station_keeps env (PostRecall service) w
               ltac:(intros ?; rewrite K; discriminate))). cbn [placed]. now rewrite ?K.
    + apply (Off (off_station_keeps env (PostRecall service) w
               ltac:(intros ?; rewrite K; discriminate))). cbn [placed]. now rewrite ?K.
Qed.

Lemma last_placed_tracks (st : Station) (run : list (Env * Request)) :
  forall w g,
    get st (currentServing (mem w)) = g ->
    get st (lastServed (mem w)) = g ->
    get st (currentServing (mem (exec run w))) = last_placed st run w g /\
    get st (lastServed (mem (exec run w))) = last_placed st run w g.
Proof.
  induction run as [| [env r] run IH]; intros w g Hc Hl; cbn [exec last_placed].
  - now split.
  - apply IH.
    + destruct (Request_reset_dec r) as [-> | Hr].
      * rewrite post_reset_queue_mem. unfold fresh; cbn. apply get_every.
      * destruct (placed_after env r w st Hr) as [-> _]. rewrite Hc.
        destruct r; try reflexivity. now elim Hr.
    + destruct (Request_reset_dec r) as [-> | Hr].
      * rewrite post_reset_queue_mem. unfold fresh; cbn. apply get_every.
      * destruct (placed_after env r w st Hr) as [_ ->]. rewrite Hl.
        destruct r; try reflexivity. now elim Hr.
Qed.

(** C5. After every run of requests from a fresh start, at every station:
    the ticket in [currentServing] is not in the waiting list; [lastServed]
    is the most recent ticket that a call or a recall stored in
    [currentServing] (none at the start and after a reset), and so is
    [currentServing] itself; and whenever a further request stores another
    ticket in [currentServing], that ticket was the head of the waiting list
    and the request removed it. *)
Theorem serving_invariant (run : list (Env * Request)) (st : Station) :
  let w := exec run initial in
  (forall t, get st (currentServing (mem w)) = Some t ->
             ~ In t (get st (queues (mem w)))) /\
  get st (lastServed (mem w)) = last_placed st run initial None /\
  get st (currentServing (mem w)) = last_placed st run initial None /\
  (forall env r t,
      get st (currentServing (mem (after env r w))) = Some t ->
      get st (currentServing (mem (after env r w))) <> get st (currentServing (mem w)) ->
      get st (queues (mem w)) = t :: get st (queues (mem (after env r w)))).
Proof.
  intros w.
  assert (Hr : reachable w) by (apply exec_reachable; exact reachable_initial).
  pose proof (reachable_numbered w Hr st) as Hn.
  destruct (last_placed_tracks st run initial None) as [Hc Hl];
    [destruct st; reflexivity | destruct st; reflexivity |].
  fold w in Hc, Hl.
  split; [| split; [exact Hl | split; [exact Hc |]]].
  - intros t Ht. apply (numbered_current_not_waiting st (slots st (mem w)) t Hn Ht).
  - intros env r t Hafter Hchanged.
    pose proof (after_transition env r w st) as T.
    change (get st (currentServing (mem (after env r w))))
      with (s_current (slots st (mem (after env r w)))) in Hafter, Hchanged.
    change (get st (queues (mem (after env r w))))
      with (s_waiting (slots st (mem (after env r w)))).
    change (get st (currentServing (mem w))) with (s_current (slots st (mem w))) in Hchanged.
    change (get st (queues (mem w))) with (s_waiting (slots st (mem w))).
    destruct Hn as (ks & _ & _ & _ & Hlast & _).
    remember (slots st (mem w)) as a eqn:Ea.
    remember (slots st (mem (after env r w))) as b eqn:Eb.
    clear Ea Eb Hc Hl.
    destruct T as [r a _ | now a _ | now a _ | a t' rest Hq | a t' Hq | a];
      cbn in Hafter, Hchanged |- *.
    + now elim Hchanged.
    + now elim Hchanged.
    + now elim Hchanged.
    + injection Hafter as <-. exact Hq.
    + elim Hchanged. now rewrite <- Hlast, Hq.
    + discriminate.
Qed.

Lemma serving_invariant_witness :
  let run := [(fs_ok, PostQueue "Charging" 1); (fs_ok, PostQueue "Charging" 2);
              (fs_ok, PostCall "Charging"); (fs_write_error, PostCall "Charging");
              (fs_ok, PostRecall "Charging")] in
  get Charging (lastServed (mem (exec run initial))) = Some (mkTicket "C2" "Charging" 2) /\
  last_placed Charging run initial None = Some (mkTicket "C2" "Charging" 2) /\
  ~ In (mkTicket "C2" "Charging" 2) (get Charging (queues (mem (exec run initial)))).
Proof.
  intros run.
  destruct (serving_invariant run Charging) as (H1 & H2 & H3 & _).
  split; [rewrite H2; reflexivity |]. split; [reflexivity |].
  apply H1. reflexivity.
Defined.

(** ** Ticket numbers *)

Lemma post_queue_counter (env : Env) (st : Station) (now : N) (w : World) :
  get st (queueNumbers (mem (after env (PostQueue (station_name st) now) w)))
  = get st (queueNumbers (mem w)) + 1.
Proof.
  unfold after. rewrite post_queue_station. cbn zeta.
  destruct (Nat.ltb _ _); [destruct (write_fails env) |];
    cbn; now rewrite get_set_same.
Qed.

Lemma counter_monotone (env : Env) (r : Request) (w : World) (st : Station) :
  r <> PostResetQueue ->
  get st (queueNumbers (mem w)) <= get st (queueNumbers (mem (after env r w))).
Proof.
  intros Hr. pose proof (after_transition env r w st) as T.
  change (s_counter (slots st (mem w)) <= s_counter (slots st (mem (after env r w)))).
  remember (slots st (mem w)) as a eqn:Ea.
  remember (slots st (mem (after env r w))) as b eqn:Eb. clear Ea Eb.
  destruct T; cbn; try lia. now elim Hr.
Qed.

Lemma Station_eqb_eq (a b : Station) : Station_eqb a b = true <-> a = b.
Proof. destruct a, b; cbn; split; (reflexivity || discriminate). Qed.

Lemma minted_spec (st : Station) (r : Request) (w : World) :
  (exists now, r = PostQueue (station_name st) now /\
               minted st r w = [ticket_no st (get st (queueNumbers (mem w)) + 1)]) \/
  ((forall now, r <> PostQueue (station_name st) now) /\ minted st r w = []).
Proof.
  destruct r as [| service now | | | | | |]; try (right; split; [discriminate | reflexivity]).
  cbn [minted]. destruct (lookup_key service) as [st' | k | |] eqn:K.
  - apply lookup_key_station_inv in K; subst service.
    destruct (Station_eqb st st') eqn:E.
    + apply Station_eqb_eq in E; subst st'. left. exists now. split; [reflexivity |].
      now rewrite generateQueueNumber_station.
    + right. split; [| reflexivity]. intros now' [= H _].
      apply station_name_inj in H. subst st'.
      assert (Station_eqb st st = true) by now apply Station_eqb_eq. congruence.
  - right. split; [| reflexivity]. intros now' [= -> _].
    rewrite lookup_key_station in K. discriminate.
  - right. split; [| reflexivity]. intros now' [= -> _].
    rewrite lookup_key_station in K. discriminate.
  - right. split; [| reflexivity]. intros now' [= -> _].
    rewrite lookup_key_station in K. discriminate.
Qed.

Lemma issued_increasing (st : Station) (run : list (Env * Request)) :
  no_reset run ->
  forall w, exists ks,
    issued st run w = map (ticket_no st) ks /\
    StronglySorted N.lt ks /\
    Forall (fun k => get st (queueNumbers (mem w)) < k) ks.
Proof.
  induction 1 as [| [env r] run Hr _ IH]; intros w.
  - exists []. repeat split; constructor.
  - cbn [issued]. cbn in Hr. destruct (IH (after env r w)) as (ks & Hks & Hs & Hgt).
    destruct (minted_spec st r w) as [(now & -> & ->) | (_ & ->)].
    + rewrite post_queue_counter in Hgt.
      exists (get st (queueNumbers (mem w)) + 1 :: ks). cbn. rewrite Hks.
      repeat split.
      * constructor; assumption.
      * constructor; [lia |]. eapply Forall_impl; [| exact Hgt]. cbn. intros; lia.
    + pose proof (counter_monotone env r w st Hr) as Hm.
      exists ks. cbn. repeat split; try assumption.
      eapply Forall_impl; [| exact Hgt]. cbn. intros; lia.
Qed.

Lemma sorted_numbers_NoDup (st : Station) (ks : list N) :
  StronglySorted N.lt ks -> NoDup (map (ticket_no st) ks).
Proof.
  induction 1 as [| k ks _ IH Hk]; cbn; constructor; [| assumption].
  intros Hin. apply in_map_iff in Hin. destruct Hin as (k' & Heq & Hin).
  apply ticket_no_inj in Heq. subst k'.
  rewrite Forall_forall in Hk. specialize (Hk k Hin). lia.
Qed.

(** C6. At every station: [generateQueueNumber] increments the counter and
    returns the first letter of the station's name followed by the new value,
    and that is the number [/queue] answers with; the counter starts at 0
    and no request other than [/reset-queue] decreases it; along any run of
    requests without a reset, the numbers produced for the station carry
    strictly increasing sequence values, so no two of them are equal. *)
Theorem ticket_numbering (st : Station) :
  (forall w,
      let n := get st (queueNumbers (mem w)) + 1 in
      fst (generateQueueNumber (station_name st) w)
      = Normal (substring 0 1 (station_name st) ++ decimal n) /\
      get st (queueNumbers (mem (snd (generateQueueNumber (station_name st) w)))) = n) /\
  (forall env now w num,
      fst (handle env (PostQueue (station_name st) now) w) = Normal (Number num) ->
      minted st (PostQueue (station_name st) now) w = [num]) /\
  get st (queueNumbers (mem initial)) = 0 /\
  (forall env r w,
      r <> PostResetQueue ->
      get st (queueNumbers (mem w)) <= get st (queueNumbers (mem (after env r w)))) /\
  (forall run w,
      no_reset run ->
      exists ks,
        issued st run w = map (fun k => substring 0 1 (station_name st) ++ decimal k) ks /\
        StronglySorted N.lt ks /\
        Forall (fun k => get st (queueNumbers (mem w)) < k) ks) /\
  (forall run w, no_reset run -> NoDup (issued st run w)).
Proof.
  split; [| split; [| split; [| split; [| split]]]].
  - intros w n. subst n. rewrite generateQueueNumber_station. cbn zeta. split.
    + cbn [fst]. unfold ticket_no. now rewrite prefix_station.
    + cbn. now rewrite get_set_same.
  - intros env now w num H.
    destruct (minted_spec st (PostQueue (station_name st) now) w)
      as [(now' & _ & ->) | (Hno & _)]; [| now elim (Hno now)].
    rewrite post_queue_station in H. cbn zeta in H.
    destruct (Nat.ltb _ _); [destruct (write_fails env) |]; cbn in H;
      congruence.
  - destruct st; reflexivity.
  - intros env r w Hr. now apply counter_monotone.
  - intros run w H.
    destruct (issued_increasing st run H w) as (ks & Hks & Hs & Hgt).
    exists ks. repeat split; try assumption.
    rewrite Hks. apply map_ext. intros k. unfold ticket_no. now rewrite prefix_station.
  - intros run w H.
    destruct (issued_increasing st run H w) as (ks & -> & Hs & _).
    now apply sorted_numbers_NoDup.
Qed.

Lemma ticket_numbering_witness :
  issued Charging
    [(fs_ok, PostQueue "Charging" 1); (fs_write_error, PostQueue "Charging" 2);
     (fs_ok, PostCall "Charging"); (fs_ok, PostQueue "Releasing" 3);
     (fs_ok, PostQueue "Charging" 4)] initial
  = ["C1"; "C2"; "C3"] /\
  NoDup (issued Charging
    [(fs_ok, PostQueue "Charging" 1); (fs_write_error, PostQueue "Charging" 2);
     (fs_ok, PostCall "Charging"); (fs_ok, PostQueue "Releasing" 3);
     (fs_ok, PostQueue "Charging" 4)] initial).
Proof.
  split; [reflexivity |].
  destruct (ticket_numbering Charging) as (_ & _ & _ & _ & _ & H).
  apply H. repeat constructor; discriminate.
Defined.

(** ** Names inherited from [Object.prototype] *)

Lemma assoc_not_in {A} (k : string) (l : list (string * A)) :
  ~ In k (map fst l) -> assoc k l = None.
Proof.
  induction l as [| [k' v] l IH]; cbn; intros H; [reflexivity |].
  destruct (String.eqb_spec k k') as [-> | _]; [elim H; now left |].
  apply IH. intros Hin. apply H. now right.
Qed.

Lemma lookup_key_function (service : string) :
  In service (map fst object_prototype_functions) ->
  exists k, lookup_key service = KFunction k /\ (k < maxQueueLength)%nat.
Proof.
  cbn [map fst object_prototype_functions]. intros H.
  repeat (destruct H as [<- | H];
          [eexists; split; [reflexivity | unfold maxQueueLength; lia] |]).
  destruct H.
Qed.

Lemma lookup_key_inherited (service : string) :
  In service inherited_names ->
  lookup_key service = KProto \/
  exists k, lookup_key service = KFunction k /\ (k < maxQueueLength)%nat.
Proof.
  intros [<- | H]; [now left | right; now apply lookup_key_function].
Qed.

Lemma lookup_key_unknown (service : string) :
  (forall st, service <> station_name st) ->
  ~ In service inherited_names ->
  lookup_key service = KNone.
Proof.
  intros Hs Hi. unfold lookup_key.
  destruct (String.eqb_spec service "Charging") as [E | _]; [elim (Hs Charging E) |].
  destruct (String.eqb_spec service "Releasing") as [E | _]; [elim (Hs Releasing E) |].
  destruct (String.eqb_spec service "Extraction") as [E | _]; [elim (Hs Extraction E) |].
  destruct (String.eqb_spec service "__proto__") as [E | _];
    [elim Hi; left; now symmetry |].
  rewrite assoc_not_in; [reflexivity |]. intros H. apply Hi. now right.
Qed.

(** ** Recall *)

(** C7. At every station, [/recall] answers "Nothing to recall." exactly when
    [lastServed] holds no ticket there.  Otherwise it stores the last served
    ticket in [currentServing] and, the write succeeding, answers with that
    ticket's number.  In both cases no waiting list and no [lastServed] entry
    is modified. *)
Theorem post_recall_station_spec (env : Env) (st : Station) (w : World) :
  let r := handle env (PostRecall (station_name st)) w in
  (fst r = Normal NothingToRecall <-> get st (lastServed (mem w)) = None) /\
  (forall t, get st (lastServed (mem w)) = Some t ->
     get st (currentServing (mem (snd r))) = Some t /\
     (write_fails env = false -> fst r = Normal (LastNumber (Some (number t))))) /\
  queues (mem (snd r)) = queues (mem w) /\
  lastServed (mem (snd r)) = lastServed (mem w).
Proof.
  intros r. subst r. rewrite post_recall_station.
  destruct (get st (lastServed (mem w))) as [t |] eqn:L; cbn zeta.
  - destruct (write_fails env) eqn:Hw; cbn [fst snd mem].
    + split; [split; discriminate |]. split; [| split; reflexivity].
      intros t' [= <-]. split; [| discriminate]. cbn. now rewrite get_set_same.
    + split; [split; discriminate |]. split; [| split; reflexivity].
      intros t' [= <-]. split; [| reflexivity]. cbn. now rewrite get_set_same.
  - cbn [fst snd]. split; [split; reflexivity |]. split; [| split; reflexivity].
    discriminate.
Qed.

Lemma post_recall_station_spec_witness :
  let w := after fs_ok (PostCall "Extraction")
             (after fs_ok (PostQueue "Extraction" 1) initial) in
  fst (handle fs_ok (PostRecall "Extraction") w) = Normal (LastNumber (Some "E1")) /\
  fst (handle fs_ok (PostRecall "Extraction") initial) = Normal NothingToRecall.
Proof.
  intros w. split.
  - destruct (post_recall_station_spec fs_ok Extraction w) as (_ & H & _).
    destruct (H (mkTicket "E1" "Extraction" 1) eq_refl) as [_ Hn].
    exact (Hn eq_refl).
  - destruct (post_recall_station_spec fs_ok Extraction initial) as (H & _).
    apply H. reflexivity.
Defined.

(** The strings that are neither a station's name nor inherited find
    nothing in [lastServed]: [/recall] answers "Nothing to recall." and the
    world is as before. *)
Lemma post_recall_unknown_name (env : Env) (service : string) (w : World) :
  (forall st, service <> station_name st) ->
  ~ In service inherited_names ->
  handle env (PostRecall service) w = (Normal NothingToRecall, w).
Proof.
  intros Hs Hi. cbn [handle]. unfold post_recall.
  now rewrite (lookup_key_unknown service Hs Hi).
Qed.

(** C10.  No ticket is ever stored in [lastServed] under a name that is not
    a station's, yet for the names inherited from [Object.prototype]
    ([constructor], [toString], [__proto__], ...) the test
    [!lastServed[service]] of [/recall] finds the inherited member and does
    not stop: the handler never answers "Nothing to recall." there.  It
    broadcasts a message with the number [undefined], changes the world, and
    then writes the snapshot: with a write that succeeds it answers 200 with
    no [lastNumber] and the file holds the engine's state, with a failing
    write it ends in the write's error. *)
Theorem post_recall_inherited_name (env : Env) (service : string) (w : World) :
  In service inherited_names ->
  let r := handle env (PostRecall service) w in
  fst r <> Normal NothingToRecall /\
  snd r <> w /\
  sent (snd r) = (sent w ++ [("Now serving number undefined at " ++ service)%string])%list /\
  (write_fails env = false ->
     fst r = Normal (LastNumber None) /\
     exists f, data_file (snd r) = Some f /\ file_holds f (mem (snd r))) /\
  (write_fails env = true -> fst r = Throw WriteError).
Proof.
  intros Hin. cbn zeta.
  assert (Hsent : sent (snd (handle env (PostRecall service) w))
                  = (sent w ++ [("Now serving number undefined at " ++ service)%string])%list).
  { cbn [handle]. unfold post_recall.
    destruct (lookup_key_inherited service Hin) as [K | (k & K & _)]; rewrite K;
      unfold bind, modify, notifyClients, saveState, ret; cbn -[String.append];
      destruct (write_fails env); reflexivity. }
  split; [| split; [| split; [exact Hsent |]]].
  - cbn [handle]. unfold post_recall.
    destruct (lookup_key_inherited service Hin) as [K | (k & K & _)]; rewrite K;
      unfold bind, modify, notifyClients, saveState, ret; cbn -[String.append];
      destruct (write_fails env); discriminate.
  - intros E. rewrite E in Hsent. apply (f_equal (@length string)) in Hsent.
    rewrite length_app in Hsent. cbn in Hsent. lia.
  - split; intros Hw; cbn [handle]; unfold post_recall;
      destruct (lookup_key_inherited service Hin) as [K | (k & K & _)]; rewrite K;
      unfold bind, modify, notifyClients, saveState, ret; cbn -[String.append];
      rewrite Hw; cbn -[String.append];
      try reflexivity;
      (split; [reflexivity |]); eexists; (split; [reflexivity |]);
      unfold file_holds; cbn; repeat split; reflexivity.
Qed.

Lemma post_recall_inherited_name_witness :
  fst (handle fs_ok (PostRecall "constructor") initial) = Normal (LastNumber None) /\
  sent (after fs_ok (PostRecall "constructor") initial)
  = ["Now serving number undefined at constructor"] /\
  data_file (after fs_ok (PostRecall "constructor") initial) <> None.
Proof.
  destruct (post_recall_inherited_name fs_ok "constructor" initial) as (_ & _ & H3 & H4 & _).
  - cbn. auto.
  - destruct (H4 eq_refl) as (H5 & f & Hf & _).
    split; [exact H5 |]. split; [exact H3 |]. unfold after. rewrite Hf. discriminate.
Defined.

(** ** Reset *)

(** C8. [/reset-queue] assigns the initial value to every state variable:
    each station's waiting list, [currentServing], [lastServed] and counter,
    and [servedHistory], [totalServed], [totalWaitTime] and the announcement.
    It sends nothing to the clients and, the unlink succeeding, leaves no
    snapshot file.  [GET /queue] then reports every station with no current
    ticket, nobody waiting and an estimated wait of 0, and
    [GET /announcement] the empty string. *)
Theorem post_reset_queue_spec (env : Env) (w : World) :
  unlink_fails env = false ->
  let w' := after env PostResetQueue w in
  fst (handle env PostResetQueue w) = Normal ResetDone /\
  (forall st,
      get st (queues (mem w')) = [] /\
      get st (currentServing (mem w')) = None /\
      get st (lastServed (mem w')) = None /\
      get st (queueNumbers (mem w')) = 0) /\
  servedHistory (mem w') = [] /\
  totalServed (mem w') = 0 /\
  totalWaitTime (mem w') = 0 /\
  currentAnnouncement (mem w') = "" /\
  mem w' = fresh /\
  data_file w' = None /\
  sent w' = sent w /\
  get_queue w' =
    (Normal (Status
       [ ("Charging", mkStatus None [] 0);
         ("Releasing", mkStatus None [] 0);
         ("Extraction", mkStatus None [] 0) ]), w') /\
  get_announcement w' = (Normal (Announcement ""), w').
Proof.
  intros Hu w'. subst w'. unfold after. rewrite post_reset_queue_eq, Hu. cbn [fst snd].
  split; [reflexivity |]. split.
  - intros st. destruct (data_file w); cbn; rewrite !get_every; repeat split.
  - destruct (data_file w); cbn; repeat split.
Qed.

Lemma post_reset_queue_spec_witness :
  let w := after fs_ok (PostAnnouncement "Closed at noon")
             (after fs_ok (PostCall "Charging")
                (after fs_ok (PostQueue "Charging" 1) initial)) in
  mem (after fs_ok PostResetQueue w) = fresh /\
  data_file (after fs_ok PostResetQueue w) = None /\
  data_file w <> None.
Proof.
  intros w.
  destruct (post_reset_queue_spec fs_ok w eq_refl) as (_ & _ & _ & _ & _ & _ & H1 & H2 & _).
  split; [exact H1 |]. split; [exact H2 |]. discriminate.
Defined.

(** ** Export *)

Lemma csvData_rows (m : Engine) (s n : string) :
  In (s, n) (csvData m) <->
  exists st t, s = station_name st /\ In t (get st (queues m)) /\ n = number t.
Proof.
  unfold csvData. rewrite in_flat_map. split.
  - intros (st & _ & Hin). apply in_map_iff in Hin. destruct Hin as (t & [= <- <-] & Ht).
    now exists st, t.
  - intros (st & t & -> & Ht & ->). exists st. split.
    + destruct st; cbn; auto.
    + apply in_map_iff. now exists t.
Qed.

Lemma csvData_length (m : Engine) :
  length (csvData m) =
  (length (get Charging (queues m)) + length (get Releasing (queues m))
   + length (get Extraction (queues m)))%nat.
Proof.
  unfold csvData. cbn. rewrite !length_app, !length_map. cbn. lia.
Qed.

Lemma csvData_nil (m : Engine) :
  csvData m = [] <-> forall st, get st (queues m) = [].
Proof.
  split.
  - intros H st. pose proof (csvData_length m) as L. rewrite H in L. cbn in L.
    destruct st; apply length_zero_iff_nil; cbn in *; lia.
  - intros H. apply length_zero_iff_nil. rewrite csvData_length, !H. reflexivity.
Qed.

(** C9. [GET /export] answers "No data available to export." exactly when
    every waiting list is empty; otherwise it answers with one row
    [{ service, number }] for each waiting ticket, station by station in
    waiting order, built from the waiting lists alone.  It changes nothing,
    and on a fresh engine after one enqueue at Releasing the rows are exactly
    [{ service: "Releasing", number: "R1" }]. *)
Theorem get_export_spec (w : World) :
  snd (get_export w) = w /\
  (fst (get_export w) = Normal NoData <-> forall st, get st (queues (mem w)) = []) /\
  ((exists st, get st (queues (mem w)) <> []) ->
     fst (get_export w) =
     Normal (Csv (map (fun t => ("Charging", number t)) (get Charging (queues (mem w))) ++
                  map (fun t => ("Releasing", number t)) (get Releasing (queues (mem w))) ++
                  map (fun t => ("Extraction", number t)) (get Extraction (queues (mem w)))))) /\
  (forall env now,
     fst (get_export (after env (PostQueue "Releasing" now) initial))
     = Normal (Csv [("Releasing", "R1")])).
Proof.
  unfold get_export, bind, gets, ret. cbn [fst snd].
  assert (E : csvData (mem w) =
              (map (fun t => ("Charging", number t)) (get Charging (queues (mem w))) ++
               map (fun t => ("Releasing", number t)) (get Releasing (queues (mem w))) ++
               map (fun t => ("Extraction", number t)) (get Extraction (queues (mem w))))%list).
  { unfold csvData. cbn. now rewrite app_nil_r. }
  pose proof (csvData_nil (mem w)) as Hnil.
  split; [| split; [| split]].
  - destruct (csvData (mem w)); reflexivity.
  - destruct (csvData (mem w)) eqn:C; cbn.
    + split; [intros _; now apply Hnil | reflexivity].
    + split; [discriminate |]. intros H. apply Hnil in H. discriminate.
  - intros (st & Hne). rewrite <- E. destruct (csvData (mem w)) eqn:C; cbn; [| reflexivity].
    elim Hne. now apply Hnil.
  - intros env now. destruct env as [[] u]; reflexivity.
Qed.

Lemma get_export_spec_witness :
  fst (get_export (after fs_ok (PostCall "Charging")
         (after fs_ok (PostQueue "Extraction" 3)
            (after fs_ok (PostQueue "Charging" 2)
               (after fs_ok (PostQueue "Charging" 1) initial)))))
  = Normal (Csv [("Charging", "C2"); ("Extraction", "E1")]).
Proof.
  destruct (get_export_spec (after fs_ok (PostCall "Charging")
         (after fs_ok (PostQueue "Extraction" 3)
            (after fs_ok (PostQueue "Charging" 2)
               (after fs_ok (PostQueue "Charging" 1) initial)))))
    as (_ & _ & H & _).
  apply H. exists Charging. discriminate.
Defined.

(** * Further properties of the handlers *)

(** ** Handlers off the stations, as equations *)

Lemma post_queue_function (env : Env) (service : string) (now : N) (w : World) (k : nat) :
  lookup_key service = KFunction k ->
  handle env (PostQueue service now) w =
  let m1 := set_queueNumbersNaN (add_key service (queueNumbersNaN (mem w))) (mem w) in
  if Nat.ltb k maxQueueLength
  then (Throw TypeError, mkWorld m1 (data_file w) (sent w) (console w))
  else (Normal (Number (prefix service ++ "NaN")),
        mkWorld m1 (data_file w) (sent w)
                (console w ++ ["Queue for " ++ service ++ " is full."])).
Proof.
  intros K. cbn [handle]. unfold post_queue, generateQueueNumber, addToQueue.
  rewrite K. unfold bind, modify, throw, console_line, ret.
  cbn -[Nat.ltb maxQueueLength String.append].
  destruct (Nat.ltb k maxQueueLength); reflexivity.
Qed.

Lemma post_queue_proto (env : Env) (service : string) (now : N) (w : World) :
  lookup_key service = KProto ->
  handle env (PostQueue service now) w =
  (Normal (Number (prefix service ++ "NaN")),
   mkWorld (mem w) (data_file w) (sent w)
           (console w ++ ["Queue for " ++ service ++ " is full."])).
Proof.
  intros K. cbn [handle]. unfold post_queue, generateQueueNumber, addToQueue.
  rewrite K. reflexivity.
Qed.

Lemma post_call_off (env : Env) (service : string) (w : World) :
  (forall st, lookup_key service <> KStation st) ->
  handle env (PostCall service) w = (Throw TypeError, w).
Proof.
  intros K. cbn [handle]. unfold post_call, callNextNumber.
  destruct (lookup_key service) as [st | n | |]; [now elim (K st) | | |]; reflexivity.
Qed.

Lemma post_recall_function (env : Env) (service : string) (w : World) (k : nat) :
  lookup_key service = KFunction k ->
  handle env (PostRecall service) w =
  let m' := set_currentServingFns (add_key service (currentServingFns (mem w))) (mem w) in
  let message := "Now serving number undefined at " ++ service in
  if write_fails env
  then (Throw WriteError, mkWorld m' (data_file w) (sent w ++ [message]) (console w))
  else (Normal (LastNumber None),
        mkWorld m' (Some (snapshot m')) (sent w ++ [message]) (console w)).
Proof.
  intros K. cbn [handle]. unfold post_recall. rewrite K.
  unfold bind, modify, notifyClients, saveState, ret. cbn -[String.append].
  destruct (write_fails env); reflexivity.
Qed.

Lemma post_recall_proto (env : Env) (service : string) (w : World) :
  lookup_key service = KProto ->
  handle env (PostRecall service) w =
  let message := "Now serving number undefined at " ++ service in
  if write_fails env
  then (Throw WriteError, mkWorld (mem w) (data_file w) (sent w ++ [message]) (console w))
  else (Normal (LastNumber None),
        mkWorld (mem w) (Some (snapshot (mem w))) (sent w ++ [message]) (console w)).
Proof.
  intros K. cbn [handle]. unfold post_recall. rewrite K.
  unfold bind, modify, notifyClients, saveState, ret. cbn -[String.append].
  destruct (write_fails env); reflexivity.
Qed.

Lemma post_recall_none (env : Env) (service : string) (w : World) :
  lookup_key service = KNone ->
  handle env (PostRecall service) w = (Normal NothingToRecall, w).
Proof.
  intros K. cbn [handle]. unfold post_recall. now rewrite K.
Qed.

Lemma post_announcement_eq (env : Env) (a : string) (w : World) :
  handle env (PostAnnouncement a) w =
  let m' := set_currentAnnouncement a (mem w) in
  let message := "New Announcement: " ++ a in
  if write_fails env
  then (Throw WriteError, mkWorld m' (data_file w) (sent w ++ [message]) (console w))
  else (Normal Done, mkWorld m' (Some (snapshot m')) (sent w ++ [message]) (console w)).
Proof.
  cbn [handle]. unfold post_announcement, bind, modify, notifyClients, saveState, ret.
  cbn -[String.append]. destruct (write_fails env); reflexivity.
Qed.

(** The projections that the case analyses below reduce. *)
Ltac proj :=
  cbn [fst snd mem data_file sent console
       queues currentServing currentServingFns lastServed queueNumbers
       queueNumbersNaN servedHistory totalServed totalWaitTime currentAnnouncement
       set_queues set_currentServing set_currentServingFns set_lastServed
       set_queueNumbers set_queueNumbersNaN set_servedHistory set_totalServed
       set_totalWaitTime set_currentAnnouncement snapshot] in *.

(** Every way a request can run, with the world it leaves written out. *)
Ltac request_cases env r w :=
  unfold after;
  destruct r as [| service now | service | service | a | | |];
  [ cbn [handle get_queue bind gets ret]
  | destruct (lookup_key service) as [st0 | k0 | |] eqn:K;
    [ apply lookup_key_station_inv in K; subst service;
      rewrite ?(post_queue_station env st0 w now); cbn zeta;
      destruct (Nat.ltb (length (get st0 (queues (mem w)))) maxQueueLength) eqn:Hroom;
      [ destruct (write_fails env) eqn:Hw | ]
    | rewrite ?(post_queue_function env service now w k0 K); cbn zeta;
      destruct (Nat.ltb k0 maxQueueLength)
    | rewrite ?(post_queue_proto env service now w K)
    | rewrite ?(post_queue_unconfigured env service now w K) ]
  | destruct (lookup_key service) as [st0 | k0 | |] eqn:K;
    [ apply lookup_key_station_inv in K; subst service;
      rewrite ?(post_call_station env st0 w);
      destruct (get st0 (queues (mem w))) as [| nextUser rest] eqn:Hq;
      [ | cbn zeta; destruct (write_fails env) eqn:Hw ]
    | rewrite ?(post_call_off env service w ltac:(intros ?; rewrite K; discriminate))
    | rewrite ?(post_call_off env service w ltac:(intros ?; rewrite K; discriminate))
    | rewrite ?(post_call_off env service w ltac:(intros ?; rewrite K; discriminate)) ]
  | destruct (lookup_key service) as [st0 | k0 | |] eqn:K;
    [ apply lookup_key_station_inv in K; subst service;
      rewrite ?(post_recall_station env st0 w);
      destruct (get st0 (lastServed (mem w))) as [lastUser |] eqn:Hlast;
      [ cbn zeta; destruct (write_fails env) eqn:Hw | ]
    | rewrite ?(post_recall_function env service w k0 K); cbn zeta;
      destruct (write_fails env) eqn:Hw
    | rewrite ?(post_recall_proto env service w K); cbn zeta;
      destruct (write_fails env) eqn:Hw
    | rewrite ?(post_recall_none env service w K) ]
  | rewrite ?(post_announcement_eq env a w); cbn zeta;
    destruct (write_fails env) eqn:Hw
  | cbn [handle get_announcement bind gets ret]
  | rewrite ?(post_reset_queue_eq env w);
    destruct (data_file w) as [f |] eqn:Hfile;
    [ destruct (unlink_fails env) eqn:Hu | ]
  | cbn [handle]; unfold get_export, bind, gets, ret;
    destruct (csvData (mem w)) eqn:Hrows ];
  proj.

(** ** Counters of served tickets *)

Lemma accounting_step (env : Env) (r : Request) (w : World) :
  totalServed (mem w) = N.of_nat (length (servedHistory (mem w))) /\
  totalWaitTime (mem w) = averageServiceTime * totalServed (mem w) ->
  totalServed (mem (after env r w)) = N.of_nat (length (servedHistory (mem (after env r w)))) /\
  totalWaitTime (mem (after env r w)) = averageServiceTime * totalServed (mem (after env r w)).
Proof.
  intros [Hs Hw']. unfold averageServiceTime in *.
  request_cases env r w; try (split; assumption); try (split; reflexivity);
    rewrite length_app, Nat2N.inj_add; cbn [length N.of_nat Pos.of_succ_nat];
    unfold averageServiceTime; lia.
Qed.

(** X4. After every run of requests from a fresh start, [totalServed] is
    the number of entries of [servedHistory] and [totalWaitTime] is
    [averageServiceTime] times [totalServed], whatever failed on the way. *)
Theorem served_accounting (run : list (Env * Request)) :
  let w := exec run initial in
  totalServed (mem w) = N.of_nat (length (servedHistory (mem w))) /\
  totalWaitTime (mem w) = averageServiceTime * totalServed (mem w).
Proof.
  cbn zeta.
  assert (H : forall w, reachable w ->
            totalServed (mem w) = N.of_nat (length (servedHistory (mem w))) /\
            totalWaitTime (mem w) = averageServiceTime * totalServed (mem w)).
  { induction 1 as [| env r w _ IH]; [split; reflexivity | now apply accounting_step]. }
  apply H, exec_reachable, reachable_initial.
Qed.

(** ** Bounded queues *)

Lemma reachable_slots (st : Station) (P : Slots -> Prop) :
  P (slots st fresh) ->
  (forall r a b, transition st r a b -> P a -> P b) ->
  forall w, reachable w -> P (slots st (mem w)).
Proof.
  intros Hfresh Hstep w Hw. induction Hw as [| env r w _ IH].
  - exact Hfresh.
  - exact (Hstep r _ _ (after_transition env r w st) IH).
Qed.

(** X5. After every run of requests from a fresh start, no waiting list is
    longer than [maxQueueLength]; so [GET /queue] lists at most 100 numbers
    per station and never reports an estimated wait above 500. *)
Theorem queue_bounded (run : list (Env * Request)) (st : Station) :
  let w := exec run initial in
  (length (get st (queues (mem w))) <= maxQueueLength)%nat /\
  (length (waiting (snd (status_of (mem w) st))) <= 100)%nat /\
  estimatedWaitTime (snd (status_of (mem w) st)) <= 500.
Proof.
  cbn zeta.
  assert (H : (length (get st (queues (mem (exec run initial)))) <= maxQueueLength)%nat).
  { apply (reachable_slots st (fun a => (length (s_waiting a) <= maxQueueLength)%nat)).
    - unfold slots, fresh; cbn. rewrite get_every. cbn. lia.
    - intros r a b T Ha. destruct T; cbn; try assumption.
      + rewrite length_app. cbn. lia.
      + rewrite H in Ha. cbn in Ha. lia.
      + lia.
    - apply exec_reachable, reachable_initial. }
  split; [exact H |]. unfold status_of; cbn [snd waiting estimatedWaitTime].
  rewrite length_map. unfold maxQueueLength, averageServiceTime in *. split; lia.
Qed.

(** ** Stations do not interfere *)

(** X13. A request that carries a key other than a station's name leaves
    that station's waiting list, current ticket, last served ticket and
    counter as they were: requests at one station do not touch another, and
    requests at no station (unknown names, names inherited from
    [Object.prototype]) touch none. *)
Theorem station_isolation (env : Env) (r : Request) (w : World)
    (st : Station) (service : string) :
  names r = Some service ->
  service <> station_name st ->
  get st (queues (mem (after env r w))) = get st (queues (mem w)) /\
  get st (currentServing (mem (after env r w))) = get st (currentServing (mem w)) /\
  get st (lastServed (mem (after env r w))) = get st (lastServed (mem w)) /\
  get st (queueNumbers (mem (after env r w))) = get st (queueNumbers (mem w)).
Proof.
  intros Hn Hne.
  assert (E : slots st (mem (after env r w)) = slots st (mem w)).
  { pose proof (after_transition env r w st) as T.
    remember (slots st (mem w)) as a eqn:Ea.
    remember (slots st (mem (after env r w))) as b eqn:Eb. clear Ea Eb.
    destruct T; try reflexivity; cbn in Hn; try discriminate;
      injection Hn as <-; now elim Hne. }
  unfold slots in E. now injection E.
Qed.

Lemma station_isolation_witness :
  let w := after fs_ok (PostQueue "Releasing" 1) initial in
  get Releasing (queues (mem (after fs_ok (PostCall "Charging") w)))
  = get Releasing (queues (mem w)) /\
  get Releasing (queues (mem (after fs_ok (PostQueue "toString" 2) w)))
  = get Releasing (queues (mem w)).
Proof.
  intros w. split.
  - apply (station_isolation fs_ok (PostCall "Charging") w Releasing "Charging" eq_refl).
    discriminate.
  - apply (station_isolation fs_ok (PostQueue "toString" 2) w Releasing "toString" eq_refl).
    discriminate.
Defined.

(** ** Broadcasts *)


(** ** Announcements *)

(** X7. [GET /announcement] after [POST /announcement] returns the text
    just posted, also when the write of the snapshot failed; reading the
    announcement changes nothing; and the announcement is changed by no
    request other than [POST /announcement] and [/reset-queue]. *)
Theorem announcement_kept (env : Env) (w : World) :
  (forall a,
      get_announcement (after env (PostAnnouncement a) w)
      = (Normal (Announcement a), after env (PostAnnouncement a) w)) /\
  (forall r,
      (forall a, r <> PostAnnouncement a) -> r <> PostResetQueue ->
      currentAnnouncement (mem (after env r w)) = currentAnnouncement (mem w)).
Proof.
  split.
  - intros a. unfold after. rewrite post_announcement_eq. cbn zeta.
    destruct (write_fails env); reflexivity.
  - intros r Ha Hr. request_cases env r w; try reflexivity.
    + now elim (Ha a).
    + now elim (Ha a).
    + now elim Hr.
    + now elim Hr.
    + now elim Hr.
Qed.

(** ** Numbers and stations *)



(** ** Enqueue seen through the status *)

Lemma status_entry (m : Engine) (st : Station) :
  assoc (station_name st)
    [status_of m Charging; status_of m Releasing; status_of m Extraction]
  = Some (snd (status_of m st)).
Proof. destruct st; reflexivity. Qed.

Lemma get_queue_eq (w : World) :
  get_queue w = (Normal (Status (map (status_of (mem w)) stations)), w).
Proof. reflexivity. Qed.

(** X1. After an enqueue at a station with room (whether or not the write
    of the snapshot succeeded), [GET /queue] reports for that station the
    same current ticket, the former waiting numbers followed by the new
    number, and an estimated wait longer by [averageServiceTime]; the entries
    of the other stations are as before. *)
Theorem enqueue_then_status (env : Env) (st : Station) (now : N) (w : World)
    (entries entries' : list (string * StationStatus)) :
  (length (get st (queues (mem w))) < maxQueueLength)%nat ->
  fst (get_queue w) = Normal (Status entries) ->
  fst (get_queue (after env (PostQueue (station_name st) now) w))
  = Normal (Status entries') ->
  exists old,
    assoc (station_name st) entries = Some old /\
    assoc (station_name st) entries'
    = Some {| current := current old;
              waiting := waiting old ++ [ticket_no st (get st (queueNumbers (mem w)) + 1)];
              estimatedWaitTime := estimatedWaitTime old + averageServiceTime |} /\
    forall st', st' <> st ->
      assoc (station_name st') entries' = assoc (station_name st') entries.
Proof.
  intros Hroom H1 H2. rewrite get_queue_eq in H1, H2. cbn [fst] in H1, H2.
  injection H1 as <-. injection H2 as <-.
  exists (snd (status_of (mem w) st)).
  split; [apply status_entry |]. rewrite !status_entry.
  apply Nat.ltb_lt in Hroom. unfold after. rewrite post_queue_station. cbn zeta.
  rewrite Hroom. split.
  - destruct (write_fails env); unfold status_of; cbn [snd mem];
      cbn [queues currentServing set_queues set_queueNumbers current waiting
           estimatedWaitTime];
      rewrite !get_set_same, map_app, length_app, Nat2N.inj_add;
      cbn [map length number N.of_nat Pos.of_succ_nat];
      f_equal; f_equal; unfold averageServiceTime; lia.
  - intros st' Hne. rewrite !status_entry.
    destruct (write_fails env); unfold status_of; cbn [snd mem];
      cbn [queues currentServing set_queues set_queueNumbers];
      now rewrite !get_set_other by assumption.
Qed.

Lemma enqueue_then_status_witness :
  exists old,
    assoc "Charging" (map (status_of (mem initial)) stations) = Some old /\
    assoc "Charging"
      (map (status_of (mem (after fs_write_error (PostQueue "Charging" 7) initial))) stations)
    = Some {| current := current old;
              waiting := waiting old ++ ["C1"];
              estimatedWaitTime := estimatedWaitTime old + averageServiceTime |}.
Proof.
  destruct (enqueue_then_status fs_write_error Charging 7 initial
              (map (status_of (mem initial)) stations)
              (map (status_of (mem (after fs_write_error (PostQueue "Charging" 7) initial)))
                   stations))
    as (old & H1 & H2 & _).
  - vm_compute. repeat constructor.
  - reflexivity.
  - reflexivity.
  - exists old. split; [exact H1 | exact H2].
Defined.

(** ** Call, then recall *)

Lemma set_set {A} (st : Station) (v v' : A) (o : PerStation A) :
  set st v (set st v' o) = set st v o.
Proof. destruct st; reflexivity. Qed.

Lemma set_get {A} (st : Station) (o : PerStation A) : set st (get st o) o = o.
Proof. destruct st, o; reflexivity. Qed.

(** X2. A call that takes a ticket followed by a recall at the same
    station: the ticket is the current one after the call and still after
    the recall, the recall leaves the engine exactly as the call left it,
    answers (its write succeeding) with the number the call announced, and
    broadcasts the call's message a second time. *)
Theorem call_then_recall (env env' : Env) (st : Station) (w : World)
    (t : Ticket) (rest : list Ticket) :
  get st (queues (mem w)) = t :: rest ->
  let w1 := after env (PostCall (station_name st)) w in
  let w2 := after env' (PostRecall (station_name st)) w1 in
  let message := "Now serving number " ++ number t ++ " at " ++ station_name st in
  get st (currentServing (mem w1)) = Some t /\
  get st (currentServing (mem w2)) = Some t /\
  mem w2 = mem w1 /\
  sent w2 = (sent w ++ [message; message])%list /\
  (write_fails env' = false ->
   fst (handle env' (PostRecall (station_name st)) w1)
   = Normal (LastNumber (Some (number t)))).
Proof.
  intros Hq w1 w2 message. subst w2 w1. unfold after.
  rewrite post_call_station, Hq. cbn zeta.
  destruct (write_fails env); cbn [snd];
    rewrite post_recall_station; cbn [mem lastServed]; rewrite get_set_same; cbn zeta;
    destruct (write_fails env'); cbn [fst snd mem sent];
    unfold set_currentServing; cbn [currentServing queues currentServingFns lastServed
      queueNumbers queueNumbersNaN servedHistory totalServed totalWaitTime
      currentAnnouncement];
    rewrite ?set_set, ?get_set_same, <- ?app_assoc;
    (repeat split; try reflexivity; discriminate).
Qed.

Lemma call_then_recall_witness :
  let w := after fs_ok (PostQueue "Releasing" 4) initial in
  mem (after fs_ok (PostRecall "Releasing") (after fs_ok (PostCall "Releasing") w))
  = mem (after fs_ok (PostCall "Releasing") w) /\
  sent (after fs_ok (PostRecall "Releasing") (after fs_ok (PostCall "Releasing") w))
  = ["Now serving number R1 at Releasing"; "Now serving number R1 at Releasing"].
Proof.
  intros w.
  destruct (call_then_recall fs_ok fs_ok Releasing w (mkTicket "R1" "Releasing" 4) []
              eq_refl) as (_ & _ & H3 & H4 & _).
  split; [exact H3 | exact H4].
Defined.

(** X12. In every world reached from a fresh start, a recall at a station
    leaves the engine as it was: the ticket it stores in [currentServing] is
    already there.  It only broadcasts again and writes the snapshot. *)
Theorem recall_keeps_engine (run : list (Env * Request)) (env : Env) (st : Station) :
  let w := exec run initial in
  mem (after env (PostRecall (station_name st)) w) = mem w.
Proof.
  cbn zeta. set (w := exec run initial).
  assert (Hr : reachable w) by (apply exec_reachable, reachable_initial).
  destruct (reachable_numbered w Hr st) as (ks & _ & _ & _ & Hlast & _).
  cbn [slots s_last s_current] in Hlast.
  unfold after. rewrite post_recall_station.
  destruct (get st (lastServed (mem w))) as [t |] eqn:L; [| reflexivity].
  cbn zeta. rewrite Hlast, set_get.
  destruct (write_fails env); cbn [snd mem]; destruct (mem w); reflexivity.
Qed.

(** ** First in, first out *)

Lemma post_call_takes (env : Env) (st : Station) (w : World) (t : Ticket) (rest : list Ticket) :
  get st (queues (mem w)) = t :: rest ->
  let w' := after env (PostCall (station_name st)) w in
  get st (queues (mem w')) = rest /\
  servedHistory (mem w') = (servedHistory (mem w) ++ [t])%list /\
  totalServed (mem w') = totalServed (mem w) + 1 /\
  (write_fails env = false ->
   fst (handle env (PostCall (station_name st)) w) = Normal (Current (Some (number t)))).
Proof.
  intros Hq. cbn zeta. unfold after. rewrite post_call_station, Hq. cbn zeta.
  destruct (write_fails env); cbn [fst snd mem queues servedHistory totalServed];
    rewrite get_set_same; repeat split; try reflexivity; discriminate.
Qed.

Lemma calls_take_prefix (st : Station) (envs : list Env) :
  forall w,
  let q := get st (queues (mem w)) in
  let k := length envs in
  let run := map (fun env => (env, PostCall (station_name st))) envs in
  (k <= length q)%nat ->
  get st (queues (mem (exec run w))) = skipn k q /\
  servedHistory (mem (exec run w)) = (servedHistory (mem w) ++ firstn k q)%list /\
  totalServed (mem (exec run w)) = totalServed (mem w) + N.of_nat k.
Proof.
  cbn zeta. induction envs as [| env envs IH]; intros w Hk.
  - cbn. rewrite app_nil_r, N.add_0_r. auto.
  - cbn [length] in Hk.
    destruct (get st (queues (mem w))) as [| t rest] eqn:Hq; [cbn in Hk; lia |].
    cbn [length] in Hk.
    destruct (post_call_takes env st w t rest Hq) as (Hq' & Hh & Ht & _).
    cbn zeta in Hq', Hh, Ht.
    specialize (IH (after env (PostCall (station_name st)) w)).
    rewrite Hq', Hh, Ht in IH. destruct IH as (I1 & I2 & I3); [lia |].
    cbn [map exec length skipn firstn].
    split; [exact I1 |]. split; [rewrite I2, <- app_assoc; reflexivity |].
    rewrite I3, Nat2N.inj_succ; lia.
Qed.

(** X3. Calls serve a station's waiting list from the head: [k] calls, with
    [k] at most the number of waiting tickets, leave the list without its
    first [k] tickets, append exactly these, in order, to [servedHistory],
    add [k] to [totalServed] and, their writes succeeding, answer with the
    numbers of these tickets in waiting order. *)
Theorem calls_in_order (st : Station) (envs : list Env) (w : World) :
  let q := get st (queues (mem w)) in
  let k := length envs in
  let run := map (fun env => (env, PostCall (station_name st))) envs in
  (k <= length q)%nat ->
  get st (queues (mem (exec run w))) = skipn k q /\
  servedHistory (mem (exec run w)) = (servedHistory (mem w) ++ firstn k q)%list /\
  totalServed (mem (exec run w)) = totalServed (mem w) + N.of_nat k /\
  (Forall (fun env => write_fails env = false) envs ->
   responses run w = map (fun t => Normal (Current (Some (number t)))) (firstn k q)).
Proof.
  cbn zeta. intros Hk.
  destruct (calls_take_prefix st envs w Hk) as (H1 & H2 & H3).
  split; [exact H1 |]. split; [exact H2 |]. split; [exact H3 |].
  clear H1 H2 H3. revert w Hk.
  induction envs as [| env envs IH]; intros w Hk Hall; [reflexivity |].
  cbn [length] in Hk.
  destruct (get st (queues (mem w))) as [| t rest] eqn:Hq; [cbn in Hk; lia |].
  cbn [length] in Hk.
  destruct (post_call_takes env st w t rest Hq) as (Hq' & _ & _ & Hresp).
  cbn zeta in Hq'.
  apply Forall_cons_iff in Hall. destruct Hall as [Hw Hrest].
  cbn [map responses length firstn]. rewrite (Hresp Hw). f_equal.
  specialize (IH (after env (PostCall (station_name st)) w)).
  rewrite Hq' in IH. apply IH; [lia | assumption].
Qed.

Lemma calls_in_order_witness :
  let w := exec [(fs_ok, PostQueue "Charging" 1); (fs_ok, PostQueue "Charging" 2);
                 (fs_ok, PostQueue "Charging" 3)] initial in
  responses [(fs_ok, PostCall "Charging"); (fs_ok, PostCall "Charging")] w
  = [Normal (Current (Some "C1")); Normal (Current (Some "C2"))].
Proof.
  intros w.
  destruct (calls_in_order Charging [fs_ok; fs_ok] w) as (_ & _ & _ & H).
  - vm_compute. repeat constructor.
  - apply H. repeat constructor.
Defined.

(** ** What the snapshot file holds *)

(** X8. After every request that reaches [saveState()] with a write that
    succeeds (enqueue below capacity, call that takes a ticket, recall that
    finds a value, announcement), the snapshot file holds the engine's state
    after the request, variable by variable: waiting lists, current and last
    served tickets, counters, history, totals and announcement; the
    function-valued keys that a recall under an inherited name stores in
    [currentServing] are not in the file. *)
Theorem persisted_fields (env : Env) (r : Request) (w : World) :
  persists r w = true -> write_fails env = false ->
  exists f,
    data_file (after env r w) = Some f /\
    queues f = queues (mem (after env r w)) /\
    currentServing f = currentServing (mem (after env r w)) /\
    currentServingFns f = [] /\
    lastServed f = lastServed (mem (after env r w)) /\
    queueNumbers f = queueNumbers (mem (after env r w)) /\
    queueNumbersNaN f = queueNumbersNaN (mem (after env r w)) /\
    servedHistory f = servedHistory (mem (after env r w)) /\
    totalServed f = totalServed (mem (after env r w)) /\
    totalWaitTime f = totalWaitTime (mem (after env r w)) /\
    currentAnnouncement f = currentAnnouncement (mem (after env r w)).
Proof.
  intros Hp Hw0. revert Hp.
  request_cases env r w; cbn [persists];
    rewrite ?lookup_key_station, ?K, ?Hq, ?Hlast, ?Hroom;
    try discriminate; try congruence;
    intros _; eexists; (split; [reflexivity |]); cbn; repeat split; reflexivity.
Qed.

Lemma persisted_fields_witness :
  let w' := after fs_ok (PostCall "Charging")
              (after fs_ok (PostQueue "Charging" 1) initial) in
  exists f,
    data_file w' = Some f /\
    get Charging (lastServed f) = Some (mkTicket "C1" "Charging" 1) /\
    servedHistory f = [mkTicket "C1" "Charging" 1] /\
    totalServed f = 1.
Proof.
  intros w'.
  destruct (persisted_fields fs_ok (PostCall "Charging")
              (after fs_ok (PostQueue "Charging" 1) initial) eq_refl eq_refl)
    as (f & Hf & _ & _ & _ & Hl & _ & _ & Hh & Ht & _).
  exists f. split; [exact Hf |]. rewrite Hl, Hh, Ht. repeat split.
Defined.




(** ** Export rows *)

Lemma rows_NoDup (name : string) (q : list Ticket) :
  NoDup (map number q) -> NoDup (map (fun user => (name, number user)) q).
Proof.
  induction q as [| t q IH]; cbn; intros H; [constructor |].
  inversion H as [| ? ? Hnot Hrest]; subst. constructor; [| now apply IH].
  intros Hin. apply Hnot. apply in_map_iff in Hin. destruct Hin as (t' & [= E] & Ht').
  rewrite <- E. now apply in_map.
Qed.

Lemma rows_station (st : Station) (q : list Ticket) (s n : string) :
  In (s, n) (map (fun user => (station_name st, number user)) q) -> s = station_name st.
Proof.
  intros H. apply in_map_iff in H. now destruct H as (t & [= <- _] & _).
Qed.

(** X11. After every run of requests from a fresh start, the rows that
    [GET /export] builds are pairwise distinct, and each row pairs a station
    name with a number made of that station's first letter and a sequence
    value not above the station's counter. *)
Theorem export_rows_distinct (run : list (Env * Request)) :
  let w := exec run initial in
  NoDup (csvData (mem w)) /\
  forall s n, In (s, n) (csvData (mem w)) ->
    exists st k, s = station_name st /\ n = ticket_no st k /\
                 k <= get st (queueNumbers (mem w)).
Proof.
  cbn zeta. set (w := exec run initial).
  assert (Hr : reachable w) by (apply exec_reachable, reachable_initial).
  pose proof (reachable_numbered w Hr) as Hn.
  assert (Hnd : forall st, NoDup (map (fun user => (station_name st, number user))
                                      (get st (queues (mem w))))).
  { intros st. apply rows_NoDup.
    destruct (Hn st) as (ks & Hmap & Hs & _). cbn [slots s_waiting] in Hmap.
    rewrite Hmap. now apply sorted_numbers_NoDup. }
  split.
  - unfold csvData. cbn [flat_map stations]. rewrite app_nil_r.
    apply NoDup_app; [apply Hnd | apply NoDup_app; [apply Hnd | apply Hnd |] |].
    + intros [s n] H1 H2. apply rows_station in H1, H2. cbn in H1, H2. congruence.
    + intros [s n] H1 H2. apply rows_station in H1.
      apply in_app_or in H2. destruct H2 as [H2 | H2]; apply rows_station in H2;
        cbn in H1, H2; congruence.
  - intros s n Hin. apply csvData_rows in Hin. destruct Hin as (st & t & -> & Ht & ->).
    destruct (Hn st) as (ks & Hmap & _ & Hle & _). cbn [slots s_waiting s_counter] in *.
    apply (in_map number) in Ht. rewrite Hmap in Ht. apply in_map_iff in Ht.
    destruct Ht as (k & <- & Hk). exists st, k.
    rewrite Forall_forall in Hle. repeat split. now apply Hle.
Qed.

(** ** Reset when the file cannot be removed *)

(** X14. When [fs.unlink] reports an error (there is no file, or the file
    cannot be removed), [/reset-queue] still assigns the initial state and
    answers "Queue reset successfully"; the error is only written to the
    console and the snapshot file is left exactly as it was, so a file that
    could not be removed still holds the state from before the reset. *)
Theorem reset_unlink_error (env : Env) (w : World) :
  data_file w = None \/ unlink_fails env = true ->
  handle env PostResetQueue w =
  (Normal ResetDone,
   mkWorld fresh (data_file w) (sent w)
           ((console w ++ ["Queue has been reset."]) ++
            ["Failed to remove saved queue file:"])) /\
  data_file (after env PostResetQueue w) = data_file w.
Proof.
  intros H. unfold after. rewrite post_reset_queue_eq.
  destruct (data_file w) as [f |]; [| split; reflexivity].
  destruct H as [H | ->]; [discriminate | split; reflexivity].
Qed.

Lemma reset_unlink_error_witness :
  let w := after fs_ok (PostQueue "Charging" 1) initial in
  let env := {| write_fails := false; unlink_fails := true |} in
  mem (after env PostResetQueue w) = fresh /\
  data_file (after env PostResetQueue w) = data_file w /\
  exists f, data_file w = Some f /\
            get Charging (queues f) = [mkTicket "C1" "Charging" 1].
Proof.
  intros w env.
  destruct (reset_unlink_error env w (or_intror eq_refl)) as [H1 H2].
  split; [unfold after; now rewrite H1 |]. split; [exact H2 |].
  eexists. split; reflexivity.
Defined.

(** ** Enqueue off the stations *)

(** X15. An enqueue under a name that is not a station's never adds a
    ticket, never writes the snapshot and never broadcasts, and its answer is
    decided by the name.  A name that is not inherited from
    [Object.prototype] finds nothing in [queues]: the answer is "Invalid
    service" and the world is untouched.  Under [__proto__] the answer is the
    number [_NaN] with the engine untouched and "Queue for __proto__ is
    full." on the console.  Under the name of a function of
    [Object.prototype] the handler ends in a TypeError after storing [NaN]
    in [queueNumbers] under that name. *)
Theorem post_queue_off_station (env : Env) (service : string) (now : N) (w : World) :
  (forall st, service <> station_name st) ->
  let res := fst (handle env (PostQueue service now) w) in
  let w' := after env (PostQueue service now) w in
  (queues (mem w') = queues (mem w) /\
   data_file w' = data_file w /\
   sent w' = sent w) /\
  (~ In service inherited_names ->
     res = Normal InvalidService /\ w' = w) /\
  (service = "__proto__" ->
     res = Normal (Number "_NaN") /\ mem w' = mem w /\
     console w' = (console w ++ ["Queue for __proto__ is full."])%list) /\
  (In service (map fst object_prototype_functions) ->
     res = Throw TypeError /\
     mem w' = set_queueNumbersNaN (add_key service (queueNumbersNaN (mem w))) (mem w) /\
     console w' = console w).
Proof.
  intros Hs. cbn zeta. unfold after. split; [| split; [| split]].
  - pose proof (lookup_key_not_station service Hs) as Hk.
    destruct (lookup_key service) as [st | k | |] eqn:K.
    + now elim (Hk st).
    + rewrite (post_queue_function env service now w k K). cbn zeta.
      destruct (Nat.ltb k maxQueueLength); cbn [fst snd mem data_file sent];
        repeat split.
    + rewrite (post_queue_proto env service now w K). repeat split.
    + rewrite (post_queue_unconfigured env service now w K). repeat split.
  - intros Hi.
    rewrite (post_queue_unconfigured env service now w (lookup_key_unknown service Hs Hi)).
    split; reflexivity.
  - intros ->. rewrite (post_queue_proto env "__proto__" now w eq_refl).
    repeat split.
  - intros Hin. destruct (lookup_key_function service Hin) as (k & K & Hk).
    rewrite (post_queue_function env service now w k K). cbn zeta.
    apply Nat.ltb_lt in Hk. rewrite Hk. repeat split.
Qed.

Lemma post_queue_off_station_witness :
  fst (handle fs_ok (PostQueue "charging" 1) initial) = Normal InvalidService /\
  fst (handle fs_ok (PostQueue "valueOf" 1) initial) = Throw TypeError /\
  queues (mem (after fs_ok (PostQueue "valueOf" 1) initial)) = queues (mem initial).
Proof.
  split; [| split].
  - destruct (post_queue_off_station fs_ok "charging" 1 initial) as (_ & H & _).
    + intros st; destruct st; discriminate.
    + apply H. cbn. intros H'.
      repeat (destruct H' as [H' | H']; [discriminate H' |]). exact H'.
  - destruct (post_queue_off_station fs_ok "valueOf" 1 initial) as (_ & _ & _ & H).
    + intros st; destruct st; discriminate.
    + apply H. cbn. auto 20.
  - destruct (post_queue_off_station fs_ok "valueOf" 1 initial) as ((H & _) & _).
    + intros st; destruct st; discriminate.
    + exact H.
Defined.

(** ** The engine alone decides *)

Lemma engine_only (env : Env) (r : Request) (w1 w2 : World) :
  mem w1 = mem w2 ->
  fst (handle env r w1) = fst (handle env r w2) /\
  mem (after env r w1) = mem (after env r w2).
Proof.
  intros E. unfold after.
  destruct r as [| service now | service | service | a | | |].
  - cbn. now rewrite E.
  - destruct (lookup_key service) as [st | k | |] eqn:K.
    + apply lookup_key_station_inv in K; subst service.
      rewrite !post_queue_station. cbn zeta. rewrite E.
      destruct (Nat.ltb _ _); [destruct (write_fails env) |]; split; reflexivity.
    + rewrite !(post_queue_function env service now _ k K). cbn zeta. rewrite E.
      destruct (Nat.ltb _ _); split; reflexivity.
    + rewrite !(post_queue_proto env service now _ K). cbn. now rewrite E.
    + rewrite !(post_queue_unconfigured env service now _ K). cbn. now rewrite E.
  - destruct (lookup_key service) as [st | k | |] eqn:K.
    + apply lookup_key_station_inv in K; subst service.
      rewrite !post_call_station. rewrite E.
      destruct (get st (queues (mem w2))); [now split |].
      cbn zeta. destruct (write_fails env); split; reflexivity.
    + rewrite !(post_call_off env service _ ltac:(intros ?; rewrite K; discriminate)).
      now split.
    + rewrite !(post_call_off env service _ ltac:(intros ?; rewrite K; discriminate)).
      now split.
    + rewrite !(post_call_off env service _ ltac:(intros ?; rewrite K; discriminate)).
      now split.
  - destruct (lookup_key service) as [st | k | |] eqn:K.
    + apply lookup_key_station_inv in K; subst service.
      rewrite !post_recall_station. rewrite E.
      destruct (get st (lastServed (mem w2))); [| now split].
      cbn zeta. destruct (write_fails env); split; reflexivity.
    + rewrite !(post_recall_function env service _ k K). cbn zeta. rewrite E.
      destruct (write_fails env); split; reflexivity.
    + rewrite !(post_recall_proto env service _ K). cbn zeta. rewrite E.
      destruct (write_fails env); split; reflexivity.
    + rewrite !(post_recall_none env service _ K). now split.
  - rewrite !post_announcement_eq. cbn zeta. rewrite E.
    destruct (write_fails env); split; reflexivity.
  - cbn. now rewrite E.
  - rewrite !post_reset_queue_eq. cbn [fst snd]. split; [reflexivity |].
    destruct (data_file w1), (data_file w2), (unlink_fails env); reflexivity.
  - cbn [handle]. unfold get_export, bind, gets, ret. rewrite E.
    destruct (csvData (mem w2)); now split.
Qed.

(** X16. The answers of the handlers depend on the engine alone, never on
    the snapshot file, the messages already broadcast or the console: two
    worlds with the same engine answer every run of requests alike and end
    with the same engine.  In particular, after [/reset-queue] the server
    answers every run as a freshly started one does. *)
Theorem answers_from_engine (run : list (Env * Request)) (w1 w2 : World) :
  mem w1 = mem w2 ->
  responses run w1 = responses run w2 /\
  mem (exec run w1) = mem (exec run w2).
Proof.
  revert w1 w2. induction run as [| [env r] run IH]; intros w1 w2 E; cbn [responses exec].
  - now split.
  - destruct (engine_only env r w1 w2 E) as [Hres Hmem].
    destruct (IH _ _ Hmem) as [I1 I2]. rewrite Hres, I1. now split.
Qed.

Lemma answers_from_engine_witness :
  let w := after fs_ok PostResetQueue
             (exec [(fs_ok, PostQueue "Charging" 1); (fs_ok, PostCall "Charging")] initial) in
  responses [(fs_ok, PostQueue "Charging" 2); (fs_ok, PostRecall "Charging")] w
  = [Normal (Number "C1"); Normal NothingToRecall].
Proof.
  intros w.
  destruct (answers_from_engine
              [(fs_ok, PostQueue "Charging" 2); (fs_ok, PostRecall "Charging")]
              w initial) as [H _].
  - reflexivity.
  - rewrite H. reflexivity.
Defined.

(** ** From enqueue to call *)

(** X17. A ticket enqueued at a station with room is served after exactly
    the tickets that were waiting before it: once as many calls as there were
    waiting tickets have been made, the next call (its write succeeding)
    answers with the number the enqueue generated.  Failed writes of the
    enqueue or of the calls in between change nothing to this. *)
Theorem enqueued_then_called (st : Station) (now : N) (env env' : Env)
    (envs : list Env) (w : World) :
  let q := get st (queues (mem w)) in
  let w1 := after env (PostQueue (station_name st) now) w in
  let w2 := exec (map (fun e => (e, PostCall (station_name st))) envs) w1 in
  (length q < maxQueueLength)%nat ->
  length envs = length q ->
  write_fails env' = false ->
  fst (handle env' (PostCall (station_name st)) w2)
  = Normal (Current (Some (ticket_no st (get st (queueNumbers (mem w)) + 1)))).
Proof.
  cbn zeta. intros Hroom Hlen Hw.
  set (w1 := after env (PostQueue (station_name st) now) w).
  set (user := mkTicket (ticket_no st (get st (queueNumbers (mem w)) + 1))
                        (station_name st) now).
  assert (Hq1 : get st (queues (mem w1)) = (get st (queues (mem w)) ++ [user])%list).
  { subst w1. unfold after. rewrite post_queue_station. cbn zeta.
    apply Nat.ltb_lt in Hroom. rewrite Hroom.
    destruct (write_fails env); cbn [snd mem queues set_queues set_queueNumbers];
      now rewrite get_set_same. }
  destruct (calls_take_prefix st envs w1) as (Hq2 & _).
  { rewrite Hq1, length_app. cbn. lia. }
  rewrite Hq1, Hlen, skipn_app, skipn_all, Nat.sub_diag in Hq2. cbn in Hq2.
  destruct (post_call_takes env' st _ user [] Hq2) as (_ & _ & _ & H).
  exact (H Hw).
Qed.

Lemma enqueued_then_called_witness :
  let w := exec [(fs_ok, PostQueue "Extraction" 1); (fs_ok, PostQueue "Extraction" 2)]
                initial in
  fst (handle fs_ok (PostCall "Extraction")
         (exec [(fs_write_error, PostCall "Extraction"); (fs_ok, PostCall "Extraction")]
               (after fs_write_error (PostQueue "Extraction" 3) w)))
  = Normal (Current (Some "E3")).
Proof.
  intros w.
  apply (enqueued_then_called Extraction 3 fs_write_error fs_ok
           [fs_write_error; fs_ok] w).
  - vm_compute. repeat constructor.
  - reflexivity.
  - reflexivity.
Defined.
